(** * castdiff: the C syntax graph of package [cc] and the cast node of
    package [ast]

    A shallow embedding of [cc/expr.go] (expression nodes, their child
    enumeration, the operator names and the identity-aware walker) and of
    [syntax/ast/cast_expr.go] (the JSON codec of a cast node), with the
    properties of the traversal and of the child enumeration.

    Go values are modelled as follows.
    - A pointer is [option addr]; [None] is the nil pointer.
    - A value of the interface type [Syntax] is either the nil interface
      or a pair of a dynamic type and a pointer; two interface values are
      equal (as map keys) when both components are.
    - The heap gives the struct stored at every address, per struct type.
    - [map[Syntax]bool] is a [gmap Syntax bool]; reading a missing key
      gives [false].
    - A run either returns, panics, or (in the model only) exhausts the
      recursion budget. *)

From Stdlib Require Import ZArith List String Ascii Lia Bool Permutation.
From Stdlib Require Import DecimalString DecimalPos DecimalZ.
From stdpp Require Import base option countable gmap strings list relations.

Local Open Scope Z_scope.

(** ** Results of Go calls *)

(** A call that returns a value or panics with a message. *)
Inductive result (A : Type) : Type :=
| Ok (a : A)
| Panic (msg : string).
Arguments Ok {A} a.
Arguments Panic {A} msg.

(** How a run of a recursive Go function ends. [Panicked] keeps the state
    reached when the panic was raised: the effects already made are not
    undone. [OutOfFuel] marks a run of the model that needs a deeper
    recursion than the budget it was given. *)
Inductive outcome (S : Type) : Type :=
| Done (s : S)
| Panicked (msg : string) (s : S)
| OutOfFuel.
Arguments Done {S} s.
Arguments Panicked {S} msg s.
Arguments OutOfFuel {S}.

(** Sequencing: the next statement runs only when the previous returned. *)
Definition andThen {S T : Type} (r : outcome S) (k : S -> outcome T) (onPanic : S -> T) : outcome T :=
  match r with
  | Done s => k s
  | Panicked m s => Panicked m (onPanic s)
  | OutOfFuel => OutOfFuel
  end.

Notation "r ;> k" := (andThen r k (fun s => s)) (at level 61, left associativity).

Module cc.

(** ** Node kinds and interface values *)

(** The concrete types that implement [Syntax] and that [walk] and the
    [GetChildren] methods of [expr.go] mention. *)
Inductive Kind : Set :=
| KEmptyLiteral | KBooleanLiteral | KIntegerLiteral | KCharLiteral
| KRealLiteral | KStringLiteral | KSymbolLiteral | KLanguageKeyword
| KProg | KDecl | KInit | KType | KExpr | KStmt | KLabel | KPrefix.

#[global] Instance Kind_eq_dec : EqDecision Kind.
Proof. solve_decision. Defined.

Definition Kind_code (k : Kind) : nat :=
  match k with
  | KEmptyLiteral => 0 | KBooleanLiteral => 1 | KIntegerLiteral => 2
  | KCharLiteral => 3 | KRealLiteral => 4 | KStringLiteral => 5
  | KSymbolLiteral => 6 | KLanguageKeyword => 7 | KProg => 8 | KDecl => 9
  | KInit => 10 | KType => 11 | KExpr => 12 | KStmt => 13 | KLabel => 14
  | KPrefix => 15
  end%nat.

Definition Kind_decode (n : nat) : Kind :=
  match n with
  | 0 => KEmptyLiteral | 1 => KBooleanLiteral | 2 => KIntegerLiteral
  | 3 => KCharLiteral | 4 => KRealLiteral | 5 => KStringLiteral
  | 6 => KSymbolLiteral | 7 => KLanguageKeyword | 8 => KProg | 9 => KDecl
  | 10 => KInit | 11 => KType | 12 => KExpr | 13 => KStmt | 14 => KLabel
  | _ => KPrefix
  end%nat.

#[global] Instance Kind_countable : Countable Kind.
Proof. apply (inj_countable' Kind_code Kind_decode). by intros []. Defined.

(** The name [%T] prints for a pointer to a struct of the kind. *)
Definition typeName (k : Kind) : string :=
  match k with
  | KEmptyLiteral => "*cc.EmptyLiteral" | KBooleanLiteral => "*cc.BooleanLiteral"
  | KIntegerLiteral => "*cc.IntegerLiteral" | KCharLiteral => "*cc.CharLiteral"
  | KRealLiteral => "*cc.RealLiteral" | KStringLiteral => "*cc.StringLiteral"
  | KSymbolLiteral => "*cc.SymbolLiteral" | KLanguageKeyword => "*cc.LanguageKeyword"
  | KProg => "*cc.Prog" | KDecl => "*cc.Decl" | KInit => "*cc.Init"
  | KType => "*cc.Type" | KExpr => "*cc.Expr" | KStmt => "*cc.Stmt"
  | KLabel => "*cc.Label" | KPrefix => "*cc.Prefix"
  end%string.

Definition addr := positive.

(** A Go pointer: [None] is nil. *)
Definition pointer := option addr.

(** A value of interface type [Syntax]. [nilSyntax] is the nil interface;
    [Ptr k None] is a non-nil interface holding a nil pointer. *)
Inductive Syntax : Set :=
| nilSyntax
| Ptr (k : Kind) (p : pointer).

#[global] Instance Syntax_eq_dec : EqDecision Syntax.
Proof. solve_decision. Defined.

Definition Syntax_code (x : Syntax) : option (Kind * option positive) :=
  match x with nilSyntax => None | Ptr k p => Some (k, p) end.

Definition Syntax_decode (c : option (Kind * option positive)) : Syntax :=
  match c with None => nilSyntax | Some (k, p) => Ptr k p end.

#[global] Instance Syntax_countable : Countable Syntax.
Proof. apply (inj_countable' Syntax_code Syntax_decode). by intros []. Defined.

(** [x == nil] on an interface value. *)
Definition isNilInterface (x : Syntax) : bool :=
  match x with nilSyntax => true | Ptr _ _ => false end.

(** An absent slot seen as an interface value: the nil interface or an
    interface holding a nil pointer. *)
Definition isAbsent (x : Syntax) : bool :=
  match x with nilSyntax => true | Ptr _ None => true | Ptr _ (Some _) => false end.

(** ** Operators *)

Definition ExprOp := Z.

(** The constants of the [ExprOp] enumeration, numbered by [iota]; 0 is
    the blank identifier. *)
Module Op.
Definition Add : ExprOp := 1.
Definition AddEq : ExprOp := 2.
Definition Addr : ExprOp := 3.
Definition And : ExprOp := 4.
Definition AndAnd : ExprOp := 5.
Definition AndEq : ExprOp := 6.
Definition Arrow : ExprOp := 7.
Definition Call : ExprOp := 8.
Definition CUDACall : ExprOp := 9.
Definition Cast : ExprOp := 10.
Definition CastInit : ExprOp := 11.
Definition Comma : ExprOp := 12.
Definition Cond : ExprOp := 13.
Definition Div : ExprOp := 14.
Definition DivEq : ExprOp := 15.
Definition Dot : ExprOp := 16.
Definition Eq : ExprOp := 17.
Definition EqEq : ExprOp := 18.
Definition Gt : ExprOp := 19.
Definition GtEq : ExprOp := 20.
Definition Index : ExprOp := 21.
Definition Indir : ExprOp := 22.
Definition Lsh : ExprOp := 23.
Definition LshEq : ExprOp := 24.
Definition LcuBrk : ExprOp := 25.
Definition Lt : ExprOp := 26.
Definition LtEq : ExprOp := 27.
Definition RcuBrk : ExprOp := 28.
Definition Minus : ExprOp := 29.
Definition Mod : ExprOp := 30.
Definition ModEq : ExprOp := 31.
Definition Mul : ExprOp := 32.
Definition MulEq : ExprOp := 33.
Definition Name : ExprOp := 34.
Definition Not : ExprOp := 35.
Definition NotEq : ExprOp := 36.
Definition Number : ExprOp := 37.
Definition Literal : ExprOp := 38.
Definition Offsetof : ExprOp := 39.
Definition Or : ExprOp := 40.
Definition OrEq : ExprOp := 41.
Definition OrOr : ExprOp := 42.
Definition Paren : ExprOp := 43.
Definition Plus : ExprOp := 44.
Definition PostDec : ExprOp := 45.
Definition PostInc : ExprOp := 46.
Definition PreDec : ExprOp := 47.
Definition PreInc : ExprOp := 48.
Definition Rsh : ExprOp := 49.
Definition RshEq : ExprOp := 50.
Definition SizeofExpr : ExprOp := 51.
Definition SizeofType : ExprOp := 52.
Definition String : ExprOp := 53.
Definition Sub : ExprOp := 54.
Definition SubEq : ExprOp := 55.
Definition Twid : ExprOp := 56.
Definition VaArg : ExprOp := 57.
Definition Xor : ExprOp := 58.
Definition XorEq : ExprOp := 59.
Definition LCuBrk : ExprOp := 60.
Definition RCuBrk : ExprOp := 61.
End Op.

(** A keyed slice literal [[]string{k1: v1, ...}]: its length is one more
    than the largest key, and the entries without a key are the empty
    string. *)
Definition keyedGet (kvs : list (Z * string)) (i : Z) : string :=
  match find (fun kv => Z.eqb (fst kv) i) kvs with
  | Some kv => snd kv
  | None => EmptyString
  end.

Definition keyedLen (kvs : list (Z * string)) : Z :=
  fold_right (fun kv n => Z.max (fst kv + 1) n) 0 kvs.

Definition keyedSlice (kvs : list (Z * string)) : list string :=
  map (fun i => keyedGet kvs (Z.of_nat i)) (seq 0 (Z.to_nat (keyedLen kvs))).

Definition exprOpString : list string :=
  Eval vm_compute in keyedSlice
  [ (Op.Add, "Add"); (Op.AddEq, "AddEq"); (Op.Addr, "Addr"); (Op.And, "And");
    (Op.AndAnd, "AndAnd"); (Op.AndEq, "AndEq"); (Op.Arrow, "Arrow");
    (Op.Call, "Call"); (Op.Cast, "Cast"); (Op.CastInit, "CastInit");
    (Op.Comma, "Comma"); (Op.Cond, "Cond"); (Op.Div, "Div");
    (Op.DivEq, "DivEq"); (Op.Dot, "Dot"); (Op.Eq, "Eq"); (Op.EqEq, "EqEq");
    (Op.Gt, "Gt"); (Op.GtEq, "GtEq"); (Op.Index, "Index");
    (Op.Indir, "Indir"); (Op.Lsh, "Lsh"); (Op.LshEq, "LshEq");
    (Op.Lt, "Lt"); (Op.LtEq, "LtEq"); (Op.Minus, "Minus"); (Op.Mod, "Mod");
    (Op.ModEq, "ModEq"); (Op.Mul, "Mul"); (Op.MulEq, "MulEq");
    (Op.Name, "Name"); (Op.Not, "Not"); (Op.NotEq, "NotEq");
    (Op.Number, "Number"); (Op.Literal, "Literal");
    (Op.Offsetof, "Offsetof"); (Op.Or, "Or"); (Op.OrEq, "OrEq");
    (Op.OrOr, "OrOr"); (Op.Paren, "Paren"); (Op.Plus, "Plus");
    (Op.PostDec, "PostDec"); (Op.PostInc, "PostInc"); (Op.PreDec, "PreDec");
    (Op.PreInc, "PreInc"); (Op.Rsh, "Rsh"); (Op.RshEq, "RshEq");
    (Op.SizeofExpr, "SizeofExpr"); (Op.SizeofType, "SizeofType");
    (Op.String, "String"); (Op.Sub, "Sub"); (Op.SubEq, "SubEq");
    (Op.Twid, "Twid"); (Op.VaArg, "VaArg"); (Op.Xor, "Xor");
    (Op.XorEq, "XorEq"); (Op.LCuBrk, "LCuBrk"); (Op.RCuBrk, "RCuBrk") ]%string.

(** [fmt.Sprintf("%d", n)]. *)
Definition formatInt (n : Z) : string := NilZero.string_of_int (Z.to_int n).

(** The text of the run-time panic of an index expression. *)
Definition indexPanic (i : Z) (len : nat) : string :=
  if i <? 0
  then ("runtime error: index out of range [" ++ formatInt i ++ "]")%string
  else ("runtime error: index out of range [" ++ formatInt i ++ "] with length "
        ++ formatInt (Z.of_nat len))%string.

(** [exprOpString[op]], with Go's bounds check. *)
Definition indexString (tbl : list string) (i : Z) : result string :=
  if (0 <=? i) && (i <? Z.of_nat (length tbl))
  then match nth_error tbl (Z.to_nat i) with
       | Some s => Ok s
       | None => Panic (indexPanic i (length tbl))
       end
  else Panic (indexPanic i (length tbl)).

(** [func (op ExprOp) String() string] *)
Definition ExprOp_String (op : ExprOp) : result string :=
  if (0 <=? op) && (op <=? Z.of_nat (length exprOpString))
  then indexString exprOpString op
  else Ok ("ExprOp(" ++ formatInt op ++ ")")%string.

(** ** Structs *)

(** [type Expr struct]. The embedded [SyntaxInfo] (position and comments)
    plays no part in the functions below. *)
Module Expr.
Record t : Set := mk {
    Id : Z;
    Op : ExprOp;                (* operator *)
    Left : pointer;             (* *Expr: left (or only) operand *)
    Right : pointer;            (* *Expr: right operand *)
    List : list pointer;        (* []*Expr: operand list, for Comma, Cond, Call *)
    LaunchParams : list pointer;(* []*Expr: launch params for CUDACall *)
    Text : Syntax;              (* name or literal, for Name, Number, Goto, Arrow, Dot *)
    Texts : list Syntax;        (* list of literals, for String *)
    Type_ : pointer;            (* *Type: type operand *)
    Init : pointer;             (* *Init: initializer, for CastInit *)
    Block : list pointer;       (* []*Stmt *)
    SourceExpr : pointer;       (* *Expr *)
    XDecl : pointer;            (* *Decl, derived *)
    XType : pointer             (* *Type, derived *)
  }.
End Expr.

(** [type Prefix struct] *)
Module Prefix.
Record t : Set := mk {
    Id : Z;
    Dot : Syntax;
    XDecl : pointer;            (* *Decl *)
    Index : pointer             (* *Expr *)
  }.
End Prefix.

(** [type Init struct] *)
Module Init.
Record t : Set := mk {
    Id : Z;
    Prefix : list pointer;      (* []*Prefix *)
    Expr : pointer;             (* *Expr *)
    Braced : list pointer;      (* []*Init *)
    XType : pointer             (* *Type, derived *)
  }.
End Init.

(** The declarations of [Prog], [Decl], [Type], [Stmt] and [Label] are in
    other files of the package. [walk] hands each of the fields below to
    itself as a [Syntax]; whatever pointer type the field is declared
    with, the value [walk] receives is an interface value, so the fields
    are kept as arbitrary interface values here. *)
Module Prog.
Record t : Set := mk { Decls : list Syntax }.
End Prog.

Module Decl.
Record t : Set := mk { Type_ : Syntax; Init : Syntax; Body : Syntax }.
End Decl.

Module Type_.
Record t : Set := mk { Base : Syntax; Decls : list Syntax; Width : Syntax }.
End Type_.

Module Stmt.
Record t : Set := mk {
    Pre : Syntax; Expr : Syntax; Post : Syntax; Decl : Syntax;
    Body : Syntax; Else : Syntax; Text : Syntax;
    Block : list Syntax; Labels : list Syntax
  }.
End Stmt.

Module Label.
Record t : Set := mk { Name : Syntax; Expr : Syntax }.
End Label.

(** The heap: the struct each non-nil pointer points to. Go pointers never
    dangle, so every address holds a struct. *)
Record Heap : Set := mkHeap {
  exprs : addr -> Expr.t;
  prefixes : addr -> Prefix.t;
  inits : addr -> Init.t;
  progs : addr -> Prog.t;
  decls : addr -> Decl.t;
  types : addr -> Type_.t;
  stmts : addr -> Stmt.t;
  labels : addr -> Label.t
}.

(** ** Child enumeration *)

(** Conversion of a typed pointer to the interface type, as done by
    [append(lst, x.Left)] or by passing [x.Left] to [walk]. *)
Definition asSyntax (k : Kind) (p : pointer) : Syntax := Ptr k p.

(** [for _, elem := range l { if elem != nil { lst = append(lst, elem) } }] *)
Fixpoint appendNonNil (k : Kind) (l : list pointer) (lst : list Syntax) : list Syntax :=
  match l with
  | [] => lst
  | elem :: l' =>
      appendNonNil k l'
        (match elem with Some _ => lst ++ [asSyntax k elem] | None => lst end)
  end.

(** [x.List[i]], with Go's bounds check. *)
Definition indexList (l : list pointer) (i : nat) : result pointer :=
  match nth_error l i with
  | Some p => Ok p
  | None => Panic (indexPanic (Z.of_nat i) (length l))
  end.

(** [func (x *Expr) GetChildren() []Syntax], for a non-nil receiver. *)
Definition Expr_GetChildren (x : Expr.t) : result (list Syntax) :=
  let lst : list Syntax := [] in
  let lst := if isNilInterface (Expr.Text x) then lst else lst ++ [Expr.Text x] in
  let lst := if (length (Expr.Texts x) =? 0)%nat then lst else lst ++ Expr.Texts x in
  let op := Expr.Op x in
  if op =? Op.Arrow then Ok (lst ++ [asSyntax KExpr (Expr.Left x)])
  else if op =? Op.Call then
    let lst := lst ++ [asSyntax KExpr (Expr.Left x)] in
    Ok (if (length (Expr.List x) =? 0)%nat then lst
        else appendNonNil KExpr (Expr.List x) lst)
  else if op =? Op.Comma then
    Ok (if (length (Expr.List x) =? 0)%nat then lst
        else appendNonNil KExpr (Expr.List x) lst)
  else if op =? Op.Cond then
    (* the three reads are made left to right: the first that is out of
       range raises the panic *)
    match indexList (Expr.List x) 0, indexList (Expr.List x) 1,
          indexList (Expr.List x) 2 with
    | Ok c, Ok t, Ok e =>
        Ok (lst ++ [asSyntax KExpr c; asSyntax KExpr t; asSyntax KExpr e])
    | Panic m, _, _ | _, Panic m, _ | _, _, Panic m => Panic m
    end
  else if op =? Op.Dot then Ok (lst ++ [asSyntax KExpr (Expr.Left x)])
  else if op =? Op.Cast then Ok (lst ++ [asSyntax KType (Expr.Type_ x)])
  else if op =? Op.CastInit then Ok (lst ++ [asSyntax KType (Expr.Type_ x)])
  else if op =? Op.Index then
    Ok (lst ++ [asSyntax KExpr (Expr.Left x); asSyntax KExpr (Expr.Right x)])
  else if op =? Op.Offsetof then
    Ok (lst ++ [asSyntax KType (Expr.Type_ x); asSyntax KExpr (Expr.Left x)])
  else if op =? Op.Paren then Ok (lst ++ [asSyntax KExpr (Expr.Left x)])
  else if op =? Op.PostDec then Ok (lst ++ [asSyntax KExpr (Expr.Left x)])
  else if op =? Op.PostInc then Ok (lst ++ [asSyntax KExpr (Expr.Left x)])
  else if op =? Op.VaArg then
    Ok (lst ++ [asSyntax KExpr (Expr.Left x); asSyntax KType (Expr.Type_ x)])
  else
    let lst := match Expr.Type_ x with
               | Some _ => lst ++ [asSyntax KType (Expr.Type_ x)] | None => lst end in
    let lst := match Expr.Left x with
               | Some _ => lst ++ [asSyntax KExpr (Expr.Left x)] | None => lst end in
    let lst := match Expr.Right x with
               | Some _ => lst ++ [asSyntax KExpr (Expr.Right x)] | None => lst end in
    Ok (if (length (Expr.List x) =? 0)%nat then lst
        else appendNonNil KExpr (Expr.List x) lst).

(** [func (x *Prefix) GetChildren() []Syntax] *)
Definition Prefix_GetChildren (x : Prefix.t) : list Syntax := [].

(** [func (x *Init) GetChildren() []Syntax], for a non-nil receiver. *)
Definition Init_GetChildren (x : Init.t) : list Syntax :=
  let lst := fold_left (fun lst elem => lst ++ [asSyntax KPrefix elem]) (Init.Prefix x) [] in
  let lst := match Init.Expr x with
             | Some _ => lst ++ [asSyntax KExpr (Init.Expr x)] | None => lst end in
  fold_left (fun lst elem => lst ++ [asSyntax KInit elem]) (Init.Braced x) lst.

(** The children every operator starts with: the text payload when it is
    not the nil interface, then the literals of [Texts]. *)
Definition textChildren (x : Expr.t) : list Syntax :=
  (if isNilInterface (Expr.Text x) then [] else [Expr.Text x]) ++ Expr.Texts x.

(** The slots that the case of the operator appends without a nil check. *)
Definition uncheckedSlots (x : Expr.t) : list Syntax :=
  let op := Expr.Op x in
  if (op =? Op.Arrow) || (op =? Op.Call) || (op =? Op.Dot) || (op =? Op.Paren)
     || (op =? Op.PostDec) || (op =? Op.PostInc)
  then [asSyntax KExpr (Expr.Left x)]
  else if (op =? Op.Cast) || (op =? Op.CastInit) then [asSyntax KType (Expr.Type_ x)]
  else if op =? Op.Index
  then [asSyntax KExpr (Expr.Left x); asSyntax KExpr (Expr.Right x)]
  else if op =? Op.Offsetof
  then [asSyntax KType (Expr.Type_ x); asSyntax KExpr (Expr.Left x)]
  else if op =? Op.VaArg
  then [asSyntax KExpr (Expr.Left x); asSyntax KType (Expr.Type_ x)]
  else if op =? Op.Cond then map (asSyntax KExpr) (firstn 3 (Expr.List x))
  else [].

(** ** The walker *)

Definition nilDeref : string :=
  "runtime error: invalid memory address or nil pointer dereference".

(** [seen[x]] on a [map[Syntax]bool]: a missing key reads as [false]. *)
Definition seenAt (seen : gmap Syntax bool) (x : Syntax) : bool :=
  default false (seen !! x).

(** The map literal that [Walk] starts from. *)
Definition seen0 : gmap Syntax bool :=
  <[nilSyntax := true]>
  (<[Ptr KEmptyLiteral None := true]>
  (<[Ptr KIntegerLiteral None := true]>
  (<[Ptr KCharLiteral None := true]>
  (<[Ptr KRealLiteral None := true]>
  (<[Ptr KStringLiteral None := true]>
  (<[Ptr KSymbolLiteral None := true]>
  (<[Ptr KLanguageKeyword None := true]>
  (<[Ptr KDecl None := true]>
  (<[Ptr KInit None := true]>
  (<[Ptr KType None := true]>
  (<[Ptr KExpr None := true]>
  (<[Ptr KStmt None := true]>
  (<[Ptr KLabel None := true]> ∅))))))))))))).

Section Walker.
(** The callbacks act on some state of the caller, of type [A]. *)
Context {A : Type}.
Variable h : Heap.
Variables before after : Syntax -> A -> A.

(** The state a run threads: the [seen] map, shared by all the calls of
    one [Walk], and the caller's state. *)
Definition WalkState : Type := gmap Syntax bool * A.

(** [for _, y := range l { walk(y, before, after, seen) }] *)
Fixpoint walkEach (w : Syntax -> WalkState -> outcome WalkState)
      (l : list Syntax) (st : WalkState) : outcome WalkState :=
    match l with
    | [] => Done st
    | y :: l' => w y st ;> walkEach w l'
    end.

(** Reading a field through a pointer: a nil pointer panics. *)
Definition deref (p : pointer) (st : WalkState)
      (k : addr -> outcome WalkState) : outcome WalkState :=
    match p with
    | Some a => k a
    | None => Panicked nilDeref st
    end.

(** [func walk(x Syntax, before, after func(Syntax), seen map[Syntax]bool)].
    [fuel] bounds the depth of the recursion. *)
Fixpoint walk (fuel : nat) (x : Syntax) (st : WalkState) {struct fuel}
      : outcome WalkState :=
    match fuel with
    | O => OutOfFuel
    | S fuel =>
      match x with
      | nilSyntax => Done st
      | Ptr k p =>
        if seenAt (fst st) x then Done st
        else
          let st := (<[x := true]> (fst st), snd st) in
          let st := (fst st, before x (snd st)) in
          let walk := walk fuel in
          (match k with
           | KEmptyLiteral | KBooleanLiteral | KIntegerLiteral | KCharLiteral
           | KRealLiteral | KStringLiteral | KSymbolLiteral
           | KLanguageKeyword => Done st
           | KProg =>
             deref p st (fun a => let x := progs h a in
               walkEach walk (Prog.Decls x) st)
           | KDecl =>
             deref p st (fun a => let x := decls h a in
               walk (Decl.Type_ x) st ;>
               walk (Decl.Init x) ;>
               walk (Decl.Body x))
           | KInit =>
             deref p st (fun a => let x := inits h a in
               walkEach walk (map (asSyntax KInit) (Init.Braced x)) st ;>
               walk (asSyntax KExpr (Init.Expr x)))
           | KType =>
             deref p st (fun a => let x := types h a in
               walk (Type_.Base x) st ;>
               walkEach walk (Type_.Decls x) ;>
               walk (Type_.Width x))
           | KExpr =>
             deref p st (fun a => let x := exprs h a in
               walk (asSyntax KExpr (Expr.Left x)) st ;>
               walk (Expr.Text x) ;>
               walk (asSyntax KExpr (Expr.Right x)) ;>
               walkEach walk (map (asSyntax KExpr) (Expr.LaunchParams x)) ;>
               walkEach walk (Expr.Texts x) ;>
               walkEach walk (map (asSyntax KExpr) (Expr.List x)) ;>
               walk (asSyntax KType (Expr.Type_ x)) ;>
               walk (asSyntax KInit (Expr.Init x)) ;>
               walkEach walk (map (asSyntax KStmt) (Expr.Block x)))
           | KStmt =>
             deref p st (fun a => let x := stmts h a in
               walk (Stmt.Pre x) st ;>
               walk (Stmt.Expr x) ;>
               walk (Stmt.Post x) ;>
               walk (Stmt.Decl x) ;>
               walk (Stmt.Body x) ;>
               walk (Stmt.Else x) ;>
               walk (Stmt.Text x) ;>
               walkEach walk (Stmt.Block x) ;>
               walkEach walk (Stmt.Labels x))
           | KLabel =>
             deref p st (fun a => let x := labels h a in
               walk (Label.Name x) st ;>
               walk (Label.Expr x))
           | KPrefix =>
             Panicked ("walk: unexpected type " ++ typeName k) st
           end) ;>
          (fun st => Done (fst st, after x (snd st)))
      end
    end.

(** [func Walk(x Syntax, before, after func(Syntax))]. The [seen] map is
    local to the call; what the caller observes is its own state. *)
Definition Walk (fuel : nat) (x : Syntax) (a : A) : outcome A :=
    andThen (walk fuel x (seen0, a)) (fun st => Done (snd st)) snd.

End Walker.

(** [func Preorder(x Syntax, f func(Syntax))] *)
Definition Preorder {A : Type} (h : Heap) (fuel : nat) (x : Syntax)
    (f : Syntax -> A -> A) (a : A) : outcome A :=
  Walk h f (fun _ a => a) fuel x a.

(** [func Postorder(x Syntax, f func(Syntax))] *)
Definition Postorder {A : Type} (h : Heap) (fuel : nat) (x : Syntax)
    (f : Syntax -> A -> A) (a : A) : outcome A :=
  Walk h (fun _ a => a) f fuel x a.

(** ** The walker's own child rule *)

(** The fields [walk] hands to itself for an expression, in call order. *)
Definition exprFields (x : Expr.t) : list Syntax :=
  asSyntax KExpr (Expr.Left x) :: Expr.Text x :: asSyntax KExpr (Expr.Right x) ::
  (map (asSyntax KExpr) (Expr.LaunchParams x) ++
   (Expr.Texts x ++
    (map (asSyntax KExpr) (Expr.List x) ++
     asSyntax KType (Expr.Type_ x) :: asSyntax KInit (Expr.Init x) ::
     map (asSyntax KStmt) (Expr.Block x)))).

Definition initFields (x : Init.t) : list Syntax :=
  map (asSyntax KInit) (Init.Braced x) ++ [asSyntax KExpr (Init.Expr x)].

Definition declFields (x : Decl.t) : list Syntax :=
  [Decl.Type_ x; Decl.Init x; Decl.Body x].

Definition typeFields (x : Type_.t) : list Syntax :=
  Type_.Base x :: (Type_.Decls x ++ [Type_.Width x]).

Definition stmtFields (x : Stmt.t) : list Syntax :=
  Stmt.Pre x :: Stmt.Expr x :: Stmt.Post x :: Stmt.Decl x :: Stmt.Body x ::
  Stmt.Else x :: Stmt.Text x :: (Stmt.Block x ++ Stmt.Labels x).

Definition labelFields (x : Label.t) : list Syntax :=
  [Label.Name x; Label.Expr x].

(** What the type switch of [walk] does with a node once it is entered:
    the nodes it goes on to, in order, or the panic it raises. *)
Definition rule (h : Heap) (k : Kind) (p : pointer) : result (list Syntax) :=
  match k, p with
  | (KEmptyLiteral | KBooleanLiteral | KIntegerLiteral | KCharLiteral
    | KRealLiteral | KStringLiteral | KSymbolLiteral | KLanguageKeyword), _ => Ok []
  | KPrefix, _ => Panic ("walk: unexpected type " ++ typeName KPrefix)
  | _, None => Panic nilDeref
  | KProg, Some a => Ok (Prog.Decls (progs h a))
  | KDecl, Some a => Ok (declFields (decls h a))
  | KInit, Some a => Ok (initFields (inits h a))
  | KType, Some a => Ok (typeFields (types h a))
  | KExpr, Some a => Ok (exprFields (exprs h a))
  | KStmt, Some a => Ok (stmtFields (stmts h a))
  | KLabel, Some a => Ok (labelFields (labels h a))
  end.

(** The nodes [walk] goes on to from [x]. *)
Definition descends (h : Heap) (x : Syntax) : list Syntax :=
  match x with
  | nilSyntax => []
  | Ptr k p => match rule h k p with Ok cs => cs | Panic _ => [] end
  end.

(** One step of the walker's descent, and what it can reach. *)
Definition edge (h : Heap) (x y : Syntax) : Prop := In y (descends h x).
Definition reaches (h : Heap) : Syntax -> Syntax -> Prop := rtc (edge h).

(** A finite graph: a finite list of nodes that the descent never leaves. *)
Definition closed (h : Heap) (U : list Syntax) : Prop :=
  forall x y, In x U -> edge h x y -> In y U.

(** The events of a run, and the callbacks that log them. *)
Inductive Event : Set :=
| Enter (x : Syntax)
| Exit (x : Syntax).

Definition logEnter (x : Syntax) (t : list Event) : list Event := t ++ [Enter x].
Definition logExit (x : Syntax) (t : list Event) : list Event := t ++ [Exit x].

Fixpoint entered (t : list Event) : list Syntax :=
  match t with
  | [] => []
  | Enter x :: t' => x :: entered t'
  | Exit _ :: t' => entered t'
  end.

Fixpoint exited (t : list Event) : list Syntax :=
  match t with
  | [] => []
  | Enter _ :: t' => exited t'
  | Exit x :: t' => x :: exited t'
  end.

Definition mapOutcome {S T : Type} (f : S -> T) (r : outcome S) : outcome T :=
  andThen r (fun s => Done (f s)) f.

Definition isDone {S : Type} (r : outcome S) : bool :=
  match r with Done _ => true | _ => false end.

(** ** Notions used to state the properties of the walker *)

(** The state an outcome ends in, when it has one. *)
Definition finalState {S : Type} (r : outcome S) : option S :=
  match r with
  | Done s | Panicked _ s => Some s
  | OutOfFuel => None
  end.

(** [seen] only gains keys. *)
Definition grows (seen seen' : gmap Syntax bool) : Prop :=
  forall y, seenAt seen y = true -> seenAt seen' y = true.

(** The number of nodes of [U] not yet seen. *)
Fixpoint unseen (seen : gmap Syntax bool) (U : list Syntax) : nat :=
  match U with
  | [] => 0
  | y :: U' => (if seenAt seen y then 0 else 1) + unseen seen U'
  end.

(** Two runs under different callbacks end the same way, in the same
    [seen] map, and in related states of their callers. *)
Definition sameRun {A B : Type} (R : A -> B -> Prop)
    (r1 : outcome (gmap Syntax bool * A)) (r2 : outcome (gmap Syntax bool * B)) : Prop :=
  match r1, r2 with
  | Done s1, Done s2 => fst s1 = fst s2 /\ R (snd s1) (snd s2)
  | Panicked m1 s1, Panicked m2 s2 => m1 = m2 /\ fst s1 = fst s2 /\ R (snd s1) (snd s2)
  | OutOfFuel, OutOfFuel => True
  | _, _ => False
  end.

(** How an outcome ended: [None] when it returned, the message when it
    panicked. *)
Definition ending {S : Type} (r : outcome S) : option string :=
  match r with
  | Panicked m _ => Some m
  | _ => None
  end.

(** What a run has done. The run started at the nodes [roots], one after
    the other, with the map [seen]; it ended with the map [seen'] after
    the events [new]; [e] is [None] when it returned and the message when
    it panicked. *)
Record runSpec (h : Heap) (roots : list Syntax) (seen seen' : gmap Syntax bool)
    (new : list Event) (e : option string) : Prop := mkRunSpec {
  run_grows : grows seen seen';
  run_entered_once : List.NoDup (entered new);
  run_entered : forall y,
    In y (entered new) <-> seenAt seen' y = true /\ seenAt seen y = false;
  run_exited_once : List.NoDup (exited new);
  run_exited : forall y, In y (exited new) -> In y (entered new);
  run_reached : forall y, In y (entered new) -> exists c, In c roots /\ reaches h c y;
  run_done_exited : e = None -> forall y, In y (entered new) -> In y (exited new);
  run_done_roots : e = None ->
    forall c, In c roots -> c = nilSyntax \/ seenAt seen' c = true;
  run_done_closed : e = None ->
    forall y z, In y (entered new) -> edge h y z ->
      z = nilSyntax \/ seenAt seen' z = true;
  run_done_ruled : e = None ->
    forall k p, In (Ptr k p) (entered new) -> exists cs, rule h k p = Ok cs;
  run_panic_last : forall m, e = Some m ->
    exists k p new', new = new' ++ [Enter (Ptr k p)] /\ rule h k p = Panic m /\
      forall k' p', In (Ptr k' p') (entered new') -> exists cs, rule h k' p' = Ok cs
}.

(** [f] called on the nodes of [l], first to last. *)
Definition callAll {A : Type} (f : Syntax -> A -> A) (l : list Syntax) (a : A) : A :=
  fold_left (fun s y => f y s) l a.

(** The callbacks run along the events of a logged run. *)
Definition replay {A : Type} (before after : Syntax -> A -> A)
    (t : list Event) (a : A) : A :=
  fold_left (fun s ev => match ev with
                         | Enter x => before x s
                         | Exit x => after x s
                         end) t a.

(** The callback of [Preorder] and [Postorder] that does nothing. *)
Definition noop {A : Type} (x : Syntax) (a : A) : A := a.

(** A check of [closed] that runs. *)
Definition closedb (h : Heap) (U : list Syntax) : bool :=
  forallb (fun x => forallb (fun y => existsb (fun z => bool_decide (z = y)) U)
                            (descends h x)) U.

(** No node of [U] makes the type switch of [walk] panic. *)
Definition ruled (h : Heap) (U : list Syntax) : Prop :=
  forall k p, In (Ptr k p) U -> seenAt seen0 (Ptr k p) = false ->
    exists cs, rule h k p = Ok cs.

(** ** Concrete graphs *)

(** The zero values of the structs, and the heap that holds a zero value
    at every address. *)
Definition zeroExpr : Expr.t :=
  Expr.mk 0 0 None None [] [] nilSyntax [] None None [] None None None.
Definition zeroPrefix : Prefix.t := Prefix.mk 0 nilSyntax None None.
Definition zeroInit : Init.t := Init.mk 0 [] None [] None.
Definition zeroProg : Prog.t := Prog.mk [].
Definition zeroDecl : Decl.t := Decl.mk nilSyntax nilSyntax nilSyntax.
Definition zeroType : Type_.t := Type_.mk nilSyntax [] nilSyntax.
Definition zeroStmt : Stmt.t :=
  Stmt.mk nilSyntax nilSyntax nilSyntax nilSyntax nilSyntax nilSyntax nilSyntax [] [].
Definition zeroLabel : Label.t := Label.mk nilSyntax nilSyntax.

Definition zeroHeap : Heap :=
  mkHeap (fun _ => zeroExpr) (fun _ => zeroPrefix) (fun _ => zeroInit)
         (fun _ => zeroProg) (fun _ => zeroDecl) (fun _ => zeroType)
         (fun _ => zeroStmt) (fun _ => zeroLabel).

(** A heap given by finite tables of expressions and initializers; every
    other address holds a zero value. *)
Definition tableHeap (exprTable : list (addr * Expr.t)) (initTable : list (addr * Init.t)) : Heap :=
  mkHeap (fun a => default zeroExpr (snd <$> find (fun e => Pos.eqb (fst e) a) exprTable))
         (fun _ => zeroPrefix)
         (fun a => default zeroInit (snd <$> find (fun e => Pos.eqb (fst e) a) initTable))
         (fun _ => zeroProg) (fun _ => zeroDecl) (fun _ => zeroType)
         (fun _ => zeroStmt) (fun _ => zeroLabel).

(** The callback that records the node it is called on. *)
Definition record (x : Syntax) (calls : list Syntax) : list Syntax := calls ++ [x].

(** [p->name], for the examples: expression 1 is the [Arrow] node, its
    left operand is the name expression 2, and its [Text] is the symbol
    literal 1 holding the member name. *)
Definition arrowExpr : Expr.t :=
  Expr.mk 1 Op.Arrow (Some 2%positive) None [] [] (Ptr KSymbolLiteral (Some 1%positive))
          [] None None [] None None None.
Definition nameExpr : Expr.t :=
  Expr.mk 2 Op.Name None None [] [] (Ptr KSymbolLiteral (Some 2%positive))
          [] None None [] None None None.
Definition arrowHeap : Heap :=
  tableHeap [(1%positive, arrowExpr); (2%positive, nameExpr)] [].

(** [a ? b : c]: expression 1 is the [Cond] node over the expressions 2,
    3 and 4. *)
Definition plainCondExpr : Expr.t :=
  Expr.mk 1 Op.Cond None None [Some 2; Some 3; Some 4]%positive []
          nilSyntax [] None None [] None None None.

(** [a[]] with the subscript slot unset. *)
Definition indexExpr : Expr.t :=
  Expr.mk 1 Op.Index (Some 2%positive) None [] [] nilSyntax [] None None [] None None None.

(** [{ .x = a }]: initializer 1 holds prefix 1 and expression 2. *)
Definition prefixedInit : Init.t :=
  Init.mk 1 [Some 1%positive] (Some 2%positive) [] None.
Definition initHeap : Heap :=
  tableHeap [(2%positive, nameExpr)] [(1%positive, prefixedInit)].

(** A cycle: expression 1 has expression 2 as left operand and expression
    2 has expression 1 as right operand; both share the symbol 2. *)
Definition cycleExpr1 : Expr.t :=
  Expr.mk 1 Op.Add (Some 2%positive) None [] [] (Ptr KSymbolLiteral (Some 2%positive))
          [] None None [] None None None.
Definition cycleExpr2 : Expr.t :=
  Expr.mk 2 Op.Add None (Some 1%positive) [] [] (Ptr KSymbolLiteral (Some 2%positive))
          [] None None [] None None None.
Definition cycleHeap : Heap :=
  tableHeap [(1%positive, cycleExpr1); (2%positive, cycleExpr2)] [].

(** An expression whose text slot holds a prefix, and the nodes of its
    graph with the absent slots. *)
Definition prefixTextExpr : Expr.t :=
  Expr.mk 1 Op.Name None None [] [] (Ptr KPrefix (Some 1%positive))
          [] None None [] None None None.
Definition prefixTextHeap : Heap := tableHeap [(1%positive, prefixTextExpr)] [].
Definition prefixTextNodes : list Syntax :=
  [Ptr KExpr (Some 1%positive); Ptr KPrefix (Some 1%positive); Ptr KExpr None;
   Ptr KType None; Ptr KInit None].

(** The nodes of the cyclic graph, with the absent slots of its
    expressions. *)
Definition cycleNodes : list Syntax :=
  [Ptr KExpr (Some 1%positive); Ptr KExpr (Some 2%positive);
   Ptr KSymbolLiteral (Some 2%positive); Ptr KExpr None; Ptr KType None;
   Ptr KInit None].

(** ** Notions used by the further properties *)



(** [y] stands before an occurrence of [z] in [l]. *)
Definition precedes (y z : Syntax) (l : list Syntax) : Prop :=
  exists l1 l2, l = l1 ++ z :: l2 /\ In y l1.

(** The order of a run started at [roots]: a node is entered, unless it
    is one of the roots, after a node whose rule lists it; and in a run
    that returned it is left, unless it is one of the roots, before such
    a node is. *)
Definition orderedRun (h : Heap) (roots : list Syntax) (new : list Event)
    (e : option string) : Prop :=
  (forall z, In z (entered new) ->
     In z roots \/ exists y, edge h y z /\ precedes y z (entered new)) /\
  (e = None -> forall z, In z (exited new) ->
     In z roots \/ exists y, edge h y z /\ precedes z y (exited new)).

(** The keys of the map literal of [Walk]. *)
Definition preRegistered : list Syntax :=
  [nilSyntax; Ptr KEmptyLiteral None; Ptr KIntegerLiteral None;
   Ptr KCharLiteral None; Ptr KRealLiteral None; Ptr KStringLiteral None;
   Ptr KSymbolLiteral None; Ptr KLanguageKeyword None; Ptr KDecl None;
   Ptr KInit None; Ptr KType None; Ptr KExpr None; Ptr KStmt None;
   Ptr KLabel None].

(** Two heaps hold the same values in every field [walk] reads. They may
    differ in the other fields: [Id], [SourceExpr], [XDecl] and [XType]
    of an expression, [Id], [Prefix] and [XType] of an initializer, and
    the prefixes. *)
Definition agreeOnWalked (h h' : Heap) : Prop :=
  (forall a,
     Expr.Left (exprs h a) = Expr.Left (exprs h' a) /\
     Expr.Text (exprs h a) = Expr.Text (exprs h' a) /\
     Expr.Right (exprs h a) = Expr.Right (exprs h' a) /\
     Expr.LaunchParams (exprs h a) = Expr.LaunchParams (exprs h' a) /\
     Expr.Texts (exprs h a) = Expr.Texts (exprs h' a) /\
     Expr.List (exprs h a) = Expr.List (exprs h' a) /\
     Expr.Type_ (exprs h a) = Expr.Type_ (exprs h' a) /\
     Expr.Init (exprs h a) = Expr.Init (exprs h' a) /\
     Expr.Block (exprs h a) = Expr.Block (exprs h' a)) /\
  (forall a,
     Init.Braced (inits h a) = Init.Braced (inits h' a) /\
     Init.Expr (inits h a) = Init.Expr (inits h' a)) /\
  (forall a, progs h a = progs h' a) /\
  (forall a, decls h a = decls h' a) /\
  (forall a, types h a = types h' a) /\
  (forall a, stmts h a = stmts h' a) /\
  (forall a, labels h a = labels h' a).

(** The non-nil pointers of a list, in order. *)
Definition nonNil (l : list pointer) : list pointer :=
  List.filter (fun p => match p with Some _ => true | None => false end) l.

(** A slot that counts as a child only when it is set. *)
Definition whenSet (k : Kind) (p : pointer) : list Syntax :=
  match p with Some _ => [asSyntax k p] | None => [] end.

(** The operators with a case of their own in [GetChildren]. *)
Definition specialOps : list ExprOp :=
  [Op.Arrow; Op.Call; Op.Comma; Op.Cond; Op.Dot; Op.Cast; Op.CastInit;
   Op.Index; Op.Offsetof; Op.Paren; Op.PostDec; Op.PostInc; Op.VaArg].

(** Whether the names of two entries of the name table are told apart:
    they are when the indices are equal, when the first entry has no
    name, or when the names differ. *)
Definition namesApart (i j : nat) : bool :=
  let s := nth i exprOpString EmptyString in
  (i =? j)%nat || (if string_dec s EmptyString then true else false)
  || (if string_dec s (nth j exprOpString EmptyString) then false else true).

(** [p->name] after name resolution: the nodes of [arrowHeap] with their
    derived fields filled in. The expression refers back to itself
    through [SourceExpr]. *)
Definition resolvedArrowExpr : Expr.t :=
  Expr.mk 1 Op.Arrow (Some 2%positive) None [] [] (Ptr KSymbolLiteral (Some 1%positive))
          [] None None [] (Some 1%positive) (Some 5%positive) (Some 6%positive).
Definition resolvedNameExpr : Expr.t :=
  Expr.mk 2 Op.Name None None [] [] (Ptr KSymbolLiteral (Some 2%positive))
          [] None None [] None (Some 7%positive) (Some 8%positive).
Definition resolvedArrowHeap : Heap :=
  tableHeap [(1%positive, resolvedArrowExpr); (2%positive, resolvedNameExpr)] [].

(** A call node whose operand list has a nil entry. *)
Definition callExpr : Expr.t :=
  Expr.mk 1 Op.Call (Some 2%positive) None [Some 3; None; Some 4]%positive []
          nilSyntax [] None None [] None None None.
(** [-a], a unary operator of the default case. *)
Definition minusExpr : Expr.t :=
  Expr.mk 1 Op.Minus (Some 2%positive) None [] [] nilSyntax [] None None [] None None None.

End cc.

(** * Package [ast]: the cast node and its JSON codec *)

Module ast.

(** ** The part of [encoding/json] the codec calls *)

(** A JSON value. *)
#[warnings="-register-all"]
Inductive json : Set :=
| JNull
| JBool (b : bool)
| JNumber (n : Z)
| JString (s : string)
| JArray (l : list json)
| JObject (fields : list (string * json)).

(** A byte slice handed to the decoder, seen through the scanner of
    [encoding/json]: [None] when the bytes are not a JSON text, [Some v]
    when they are the text of the value [v]. *)
Definition Data : Set := option json.

(** The errors [encoding/json] returns. *)
Inductive error : Set :=
| SyntaxError
| InvalidUnmarshalError
| MarshalError (msg : string).

(** [json.Unmarshal(data, v)] for a pointer [v] whose type has an
    [UnmarshalJSON] method. [Unmarshal] first checks that [data] is a JSON
    text and returns a [SyntaxError] otherwise; it rejects a nil pointer;
    and, the type of [v] implementing [json.Unmarshaler], it hands the
    text of the value to that method and returns what the method returns.
    The method is the argument [method]. The result is the [error]
    returned, [None] for nil. *)
Definition json_Unmarshal {T : Type}
    (method : Data -> T -> outcome (option error))
    (data : Data) (v : option T) : outcome (option error) :=
  match data with
  | None => Done (Some SyntaxError)
  | Some _ =>
      match v with
      | None => Done (Some InvalidUnmarshalError)
      | Some x => method data x
      end
  end.

Section Codec.

(** The types [SyntaxInfo], [AssignOp], [Type] and [Expr] of the package
    are declared in other files; so is what [json.Marshal] writes for
    their values. *)
Variables SyntaxInfo AssignOp Type_ Expr : Type.
Variable marshalSyntaxInfo : SyntaxInfo -> error + list (string * json).
Variable marshalAssignOp : AssignOp -> error + json.
Variable marshalType : option Type_ -> error + json.
Variable marshalExpr : option Expr -> error + json.

(** [type CastExpr struct] *)
Record CastExpr : Type := mkCastExpr {
  Info : SyntaxInfo;
  Kind : string;
  Id : Z;
  Op : AssignOp;
  Type' : option Type_;     (* *Type *)
  Expr' : option Expr       (* Expr, an interface *)
}.

(** [json.Marshal(v)] for a [CastExpr] value [v]. The value passed is a
    copy and not addressable, so the encoder does not call the
    pointer-receiver method [MarshalJSON] again: it writes the struct
    field by field, the promoted fields of the embedded struct first. *)
Definition json_Marshal (v : CastExpr) : error + Data :=
  match marshalSyntaxInfo (Info v), marshalAssignOp (Op v),
        marshalType (Type' v), marshalExpr (Expr' v) with
  | inr info, inr op, inr ty, inr ex =>
      inr (Some (JObject (info ++ [("kind", JString (Kind v)); ("id", JNumber (Id v));
                                   ("op", op); ("type", ty); ("expr", ex)]%string)))
  | inl e, _, _, _ | _, inl e, _, _ | _, _, inl e, _ | _, _, _, inl e => inl e
  end.

(** [func (x *CastExpr) MarshalJSON() ([]byte, error)]. The result holds
    the node after the call ([Kind] is written into it) and what is
    returned. *)
Definition MarshalJSON (x : option CastExpr) : result (CastExpr * (error + Data)) :=
  let x := match x with
           | Some c => Some (mkCastExpr (Info c) "CastExpr" (Id c) (Op c) (Type' c) (Expr' c))
           | None => None
           end in
  match x with
  | Some c => Ok (c, json_Marshal c)
  | None => Panic cc.nilDeref
  end.

(** [func (x *CastExpr) UnmarshalJSON(data []byte) error], for a non-nil
    receiver. [fuel] bounds the depth of the calls. *)
Fixpoint UnmarshalJSON (fuel : nat) (data : Data) (x : CastExpr)
    : outcome (option error) :=
  match fuel with
  | O => OutOfFuel
  | S fuel => json_Unmarshal (UnmarshalJSON fuel) data (Some x)
  end.

(** The same method called through a pointer [x] that may be nil: the
    body does not read [x], it hands it to [json.Unmarshal]. *)
Definition UnmarshalJSON_ptr (fuel : nat) (data : Data) (x : option CastExpr)
    : outcome (option error) :=
  match fuel with
  | O => OutOfFuel
  | S fuel => json_Unmarshal (UnmarshalJSON fuel) data x
  end.

End Codec.

(** ** A concrete cast node *)

(** The cast of [x] to [float] of the codec example, with the types the
    package declares elsewhere filled in for the example: no position
    information, operators as numbers, types and expressions by name. *)
Definition exampleInfo (_ : unit) : error + list (string * json) := inr [].
Definition exampleOp (op : Z) : error + json := inr (JNumber op).
Definition exampleNamed (kind : string) (v : option string) : error + json :=
  inr (match v with
       | Some name => JObject [("kind", JString kind); ("name", JString name)]%string
       | None => JNull
       end).
Definition exampleCast : CastExpr unit Z string string :=
  mkCastExpr unit Z string string tt EmptyString 7 1 (Some "float"%string) (Some "x"%string).
Definition exampleMarshal (x : option (CastExpr unit Z string string))
    : result (CastExpr unit Z string string * (error + Data)) :=
  MarshalJSON unit Z string string exampleInfo exampleOp
    (exampleNamed "Type") (exampleNamed "Name") x.

(** A record with a discriminant no node kind has. *)
Definition bogusRecord : Data :=
  Some (JObject [("kind", JString "BogusExpr"); ("id", JNumber 1)]%string).

End ast.

(** * Properties *)

Import cc.

(** ** Operator names *)

Lemma exprOpString_length : length exprOpString = 62%nat.
Proof. reflexivity. Qed.

(** C10. [ExprOp.String] is not total: the bounds test lets the value
    equal to the length of the name table through, and indexing the table
    with it panics. *)
Theorem ExprOp_String_panics_at_table_length :
  Z.of_nat (length exprOpString) = 62 /\
  ExprOp_String 62 = Panic "runtime error: index out of range [62] with length 62".
Proof. split; reflexivity. Qed.

(** Below the table length the method returns the table entry, which is
    the empty string for the four values the table has no name for. *)
Lemma ExprOp_String_in_table (op : ExprOp) :
  0 <= op < 62 ->
  ExprOp_String op = Ok (nth (Z.to_nat op) exprOpString EmptyString).
Proof.
  intros Hop. unfold ExprOp_String, indexString.
  rewrite exprOpString_length.
  replace (0 <=? op) with true by (symmetry; apply Z.leb_le; lia).
  replace (op <=? Z.of_nat 62) with true by (symmetry; apply Z.leb_le; lia).
  replace (op <? Z.of_nat 62) with true by (symmetry; apply Z.ltb_lt; lia).
  simpl andb. cbv iota.
  destruct (nth_error exprOpString (Z.to_nat op)) as [s|] eqn:E.
  - f_equal. symmetry. by apply nth_error_nth.
  - apply nth_error_None in E. rewrite exprOpString_length in E. lia.
Qed.

Lemma ExprOp_String_unnamed :
  ExprOp_String 0 = Ok EmptyString /\
  ExprOp_String Op.CUDACall = Ok EmptyString /\
  ExprOp_String Op.LcuBrk = Ok EmptyString /\
  ExprOp_String Op.RcuBrk = Ok EmptyString.
Proof. repeat split; reflexivity. Qed.

(** Outside the closed range from zero to the table length the method
    returns the fallback text. *)
Lemma ExprOp_String_fallback (op : ExprOp) :
  op < 0 \/ 62 < op ->
  ExprOp_String op = Ok ("ExprOp(" ++ formatInt op ++ ")")%string.
Proof.
  intros Hop. unfold ExprOp_String. rewrite exprOpString_length.
  destruct Hop.
  - replace (0 <=? op) with false by (symmetry; apply Z.leb_gt; lia). done.
  - replace (op <=? Z.of_nat 62) with false by (symmetry; apply Z.leb_gt; lia).
    by rewrite andb_false_r.
Qed.

(** ** Child enumeration of expressions *)

(** The list [GetChildren] has built when it reaches its switch. *)
Lemma textChildren_prefix (x : Expr.t) :
  (let lst : list Syntax := [] in
   let lst := if isNilInterface (Expr.Text x) then lst else lst ++ [Expr.Text x] in
   if (length (Expr.Texts x) =? 0)%nat then lst else lst ++ Expr.Texts x)
  = textChildren x.
Proof.
  unfold textChildren. cbv zeta.
  destruct (isNilInterface (Expr.Text x)), (Expr.Texts x); simpl; by rewrite ?app_nil_r.
Qed.

Lemma appendNonNil_Forall (P : Syntax -> Prop) (k : Kind) (l : list pointer) :
  (forall a, In (Some a) l -> P (Ptr k (Some a))) ->
  forall lst, Forall P lst -> Forall P (appendNonNil k l lst).
Proof.
  induction l as [|[a|] l IH]; intros HP lst Hlst; simpl; auto.
  - apply IH; [intros; apply HP; simpl; auto|].
    apply Forall_app; split; [done|]. repeat constructor. apply HP. by left.
  - apply IH; [intros; apply HP; simpl; auto|done].
Qed.

(** One test of the switch, in the goal. *)
Ltac case_op_goal :=
  match goal with
  | |- context [Z.eqb (Expr.Op ?x) ?c] =>
      let E := fresh "E" in
      destruct (Z.eqb_spec (Expr.Op x) c) as [E|E]; cbv iota
  end.

(** One test of the switch: in the branch taken, the operator is known. *)
Ltac case_op H Hslots :=
  match type of H with
  | context [Z.eqb (Expr.Op ?x) ?c] =>
      let E := fresh "E" in
      destruct (Z.eqb (Expr.Op x) c) eqn:E;
      [ apply Z.eqb_eq in E; try rewrite E in Hslots; simpl in Hslots | ]
  end.

(** A property holds of every child returned when it holds of the text
    payload, of the slots appended without a check, and of the slots and
    list elements that pass their nil check. *)
Lemma GetChildren_Forall (P : Syntax -> Prop) (x : Expr.t) (cs : list Syntax) :
  Expr_GetChildren x = Ok cs ->
  Forall P (textChildren x) ->
  Forall P (uncheckedSlots x) ->
  (forall a, Expr.Type_ x = Some a -> P (Ptr KType (Some a))) ->
  (forall a, Expr.Left x = Some a -> P (Ptr KExpr (Some a))) ->
  (forall a, Expr.Right x = Some a -> P (Ptr KExpr (Some a))) ->
  (forall a, In (Some a) (Expr.List x) -> P (Ptr KExpr (Some a))) ->
  Forall P cs.
Proof.
  intros Hcs Htext Hslots HT HL HR HList.
  unfold Expr_GetChildren in Hcs. cbv zeta in Hcs.
  pose proof (textChildren_prefix x) as Hp. cbv zeta in Hp. rewrite Hp in Hcs.
  clear Hp. unfold uncheckedSlots in Hslots. cbv zeta in Hslots.
  assert (Hnn : forall lst, Forall P lst ->
            Forall P (if (length (Expr.List x) =? 0)%nat then lst
                      else appendNonNil KExpr (Expr.List x) lst)).
  { intros lst Hl. destruct (length (Expr.List x) =? 0)%nat; [done|].
    by apply appendNonNil_Forall. }
  assert (Hdone : forall lst, Forall P lst -> Ok lst = Ok cs -> Forall P cs).
  { intros lst Hl [= <-]. exact Hl. }
  repeat (case_op Hcs Hslots;
          [ solve [ eapply Hdone; [|exact Hcs];
                    first [ apply Hnn; apply Forall_app; split; assumption
                          | apply Hnn; assumption
                          | apply Forall_app; split; assumption ] ] | ]).
  case_op Hcs Hslots.
  { (* Cond *)
    destruct (Expr.List x) as [|c [|t [|e rest]]]; simpl in Hcs; try discriminate.
    eapply Hdone; [|exact Hcs]. apply Forall_app; split; assumption. }
  repeat (case_op Hcs Hslots;
          [ solve [ eapply Hdone; [|exact Hcs];
                    apply Forall_app; split; assumption ] | ]).
  (* default *)
  destruct (Expr.Type_ x) eqn:ET, (Expr.Left x) eqn:EL, (Expr.Right x) eqn:ER;
    (eapply Hdone; [|exact Hcs]); apply Hnn;
    repeat first [ assumption | apply Forall_app; split
                 | by (repeat constructor; auto) ].
Qed.

(** C3, as the code has it. For [Arrow] and [Dot] the left operand is the
    last child, after the text payload (the member name) and the elements
    of [Texts]; it is the only child exactly when those are unset. *)
Theorem GetChildren_member_access (x : Expr.t) :
  Expr.Op x = Op.Arrow \/ Expr.Op x = Op.Dot ->
  Expr_GetChildren x = Ok (textChildren x ++ [asSyntax KExpr (Expr.Left x)]) /\
  (Expr.Text x = nilSyntax -> Expr.Texts x = [] ->
   Expr_GetChildren x = Ok [asSyntax KExpr (Expr.Left x)]).
Proof.
  intros Hop.
  assert (H : Expr_GetChildren x = Ok (textChildren x ++ [asSyntax KExpr (Expr.Left x)])).
  { unfold Expr_GetChildren. cbv zeta.
    pose proof (textChildren_prefix x) as Hp. cbv zeta in Hp. rewrite Hp.
    destruct Hop as [-> | ->]; reflexivity. }
  split; [exact H|].
  intros Ht Hts. rewrite H. unfold textChildren. by rewrite Ht, Hts.
Qed.

Lemma GetChildren_member_access_witness :
  Expr_GetChildren arrowExpr =
    Ok (textChildren arrowExpr ++ [asSyntax KExpr (Expr.Left arrowExpr)]) /\
  (Expr.Text arrowExpr = nilSyntax -> Expr.Texts arrowExpr = [] ->
   Expr_GetChildren arrowExpr = Ok [asSyntax KExpr (Expr.Left arrowExpr)]).
Proof. apply (GetChildren_member_access arrowExpr). left. reflexivity. Defined.

(** C3 fails as stated: for [p->name] the member name is the first of two
    children. *)
Lemma GetChildren_Arrow_returns_member_name :
  Expr.Op arrowExpr = Op.Arrow /\
  Expr_GetChildren arrowExpr =
    Ok [Expr.Text arrowExpr; asSyntax KExpr (Expr.Left arrowExpr)] /\
  Expr_GetChildren arrowExpr <> Ok [asSyntax KExpr (Expr.Left arrowExpr)].
Proof. split; [reflexivity | split; [reflexivity | discriminate]]. Qed.

Lemma appendNonNil_keeps (k : Kind) (l : list pointer) (lst : list Syntax) (c : Syntax) :
  In c lst -> In c (appendNonNil k l lst).
Proof.
  revert lst. induction l as [|[a|] l IH]; intros lst Hc; simpl; auto.
  apply IH. apply List.in_app_iff. auto.
Qed.

(** The text payload and the slots appended without a check are always
    among the children, set or not. *)
Lemma GetChildren_has_unchecked (x : Expr.t) (cs : list Syntax) (c : Syntax) :
  Expr_GetChildren x = Ok cs ->
  In c (textChildren x) \/ In c (uncheckedSlots x) -> In c cs.
Proof.
  unfold Expr_GetChildren, uncheckedSlots. cbv zeta.
  pose proof (textChildren_prefix x) as Hp. cbv zeta in Hp. rewrite Hp. clear Hp.
  assert (Hlist : forall lst,
            In c lst ->
            In c (if (length (Expr.List x) =? 0)%nat then lst
                  else appendNonNil KExpr (Expr.List x) lst)).
  { intros lst Hc. destruct (length (Expr.List x) =? 0)%nat; [done|].
    by apply appendNonNil_keeps. }
  repeat (case_op_goal;
          [ match goal with Heq : Expr.Op _ = _ |- _ => rewrite ?Heq end; simpl;
            try solve [ intros [= <-] [Hc|Hc]; try apply Hlist;
                        rewrite ?List.in_app_iff; simpl in *; tauto ] | ]).
  - (* Cond *)
    destruct (Expr.List x) as [|a [|b [|d rest]]]; simpl; try discriminate.
    intros [= <-] [Hc|Hc]; rewrite List.in_app_iff; simpl in *; tauto.
  - (* default *)
    simpl. intros [= <-] [Hc|[]]. apply Hlist.
    destruct (Expr.Type_ x), (Expr.Left x), (Expr.Right x);
      rewrite ?List.in_app_iff; tauto.
Qed.

(** C4, as the code has it. The returned sequence holds no absent element
    exactly when none is among the text payload and the slots that the
    case of the operator appends without a check: these are returned
    whether set or not, and every other slot and list element only when
    it is not nil. *)
Theorem GetChildren_no_absent (x : Expr.t) (cs : list Syntax) :
  Expr_GetChildren x = Ok cs ->
  (Forall (fun c => isAbsent c = false) cs <->
   Forall (fun c => isAbsent c = false) (textChildren x) /\
   Forall (fun c => isAbsent c = false) (uncheckedSlots x)).
Proof.
  intros Hcs. split.
  - intros Hall. rewrite List.Forall_forall in Hall.
    split; apply List.Forall_forall; intros c Hc; apply Hall;
      apply (GetChildren_has_unchecked x cs c Hcs); auto.
  - intros [Htext Hslots].
    by apply (GetChildren_Forall (fun c => isAbsent c = false) x cs).
Qed.

Lemma GetChildren_no_absent_witness :
  Forall (fun c => isAbsent c = false)
    [Expr.Text arrowExpr; asSyntax KExpr (Expr.Left arrowExpr)] <->
  Forall (fun c => isAbsent c = false) (textChildren arrowExpr) /\
  Forall (fun c => isAbsent c = false) (uncheckedSlots arrowExpr).
Proof. apply (GetChildren_no_absent arrowExpr). reflexivity. Defined.

(** C4 fails as stated: an [Index] node whose right slot is unset gets a
    nil pointer among its children. *)
Lemma GetChildren_Index_returns_nil :
  Expr_GetChildren indexExpr = Ok [Ptr KExpr (Some 2%positive); Ptr KExpr None] /\
  isAbsent (Ptr KExpr None) = true.
Proof. split; reflexivity. Qed.

(** For [Cond] the first three elements of the operand list are the last
    three children, in list order, after the text payload; further list
    elements are not returned. *)
Lemma GetChildren_Cond_payload (x : Expr.t) (c t e : pointer) (rest : list pointer) :
  Expr.Op x = Op.Cond ->
  Expr.List x = c :: t :: e :: rest ->
  Expr_GetChildren x =
    Ok (textChildren x ++ [asSyntax KExpr c; asSyntax KExpr t; asSyntax KExpr e]).
Proof.
  intros Hop Hl. unfold Expr_GetChildren. cbv zeta.
  pose proof (textChildren_prefix x) as Hp. cbv zeta in Hp. rewrite Hp.
  rewrite Hop, Hl. reflexivity.
Qed.

(** C5. A [Cond] node is one whose operand list holds the three branches
    and whose text slots are unset: by the comments of the struct, [Text]
    is for [Name], [Number], [Goto], [Arrow] and [Dot], [Texts] is for
    [String], and a [Cond] has [List = {x, y, z}]. For every such node
    [GetChildren] returns exactly three children: the condition, the
    then-branch and the else-branch, in that order. *)
Theorem GetChildren_Cond (x : Expr.t) (c t e : pointer) :
  Expr.Op x = Op.Cond ->
  Expr.List x = [c; t; e] ->
  Expr.Text x = nilSyntax ->
  Expr.Texts x = [] ->
  Expr_GetChildren x = Ok [asSyntax KExpr c; asSyntax KExpr t; asSyntax KExpr e].
Proof.
  intros Hop Hl Ht Hts.
  rewrite (GetChildren_Cond_payload x c t e [] Hop Hl).
  unfold textChildren. by rewrite Ht, Hts.
Qed.

Lemma GetChildren_Cond_witness :
  Expr_GetChildren plainCondExpr =
    Ok [asSyntax KExpr (Some 2%positive); asSyntax KExpr (Some 3%positive);
        asSyntax KExpr (Some 4%positive)].
Proof.
  apply (GetChildren_Cond plainCondExpr (Some 2%positive) (Some 3%positive)
           (Some 4%positive)); reflexivity.
Defined.

(** ** The walker: sequencing and unfolding *)

Lemma seenAt_insert (seen : gmap Syntax bool) (x y : Syntax) :
  seenAt (<[x := true]> seen) y = true <-> x = y \/ seenAt seen y = true.
Proof.
  unfold seenAt. rewrite lookup_insert. case_decide; simpl.
  - split; auto.
  - split; [auto | intros [?|?]; [contradiction | done]].
Qed.

Lemma seenAt_insert_same (seen : gmap Syntax bool) (x : Syntax) :
  seenAt (<[x := true]> seen) x = true.
Proof. apply seenAt_insert. by left. Qed.

Lemma grows_refl (seen : gmap Syntax bool) : grows seen seen.
Proof. by intros y. Qed.

Lemma grows_trans (s1 s2 s3 : gmap Syntax bool) :
  grows s1 s2 -> grows s2 s3 -> grows s1 s3.
Proof. intros H1 H2 y Hy. auto. Qed.

Lemma grows_insert (seen : gmap Syntax bool) (x : Syntax) :
  grows seen (<[x := true]> seen).
Proof. intros y Hy. apply seenAt_insert. by right. Qed.

Lemma unseen_grows (U : list Syntax) (s1 s2 : gmap Syntax bool) :
  grows s1 s2 -> (unseen s2 U <= unseen s1 U)%nat.
Proof.
  intros Hg. induction U as [|y U IH]; simpl; [lia|].
  destruct (seenAt s1 y) eqn:E1.
  - rewrite (Hg y E1). lia.
  - destruct (seenAt s2 y); lia.
Qed.

Lemma unseen_insert (U : list Syntax) (seen : gmap Syntax bool) (x : Syntax) :
  In x U -> seenAt seen x = false ->
  (unseen (<[x := true]> seen) U < unseen seen U)%nat.
Proof.
  intros Hin Hx. induction U as [|y U IH]; simpl; [destruct Hin|].
  pose proof (unseen_grows U _ _ (grows_insert seen x)) as Hle.
  destruct Hin as [-> | Hin].
  - rewrite seenAt_insert_same, Hx. lia.
  - specialize (IH Hin).
    destruct (seenAt seen y) eqn:E1.
    + rewrite (grows_insert seen x y E1). lia.
    + destruct (seenAt (<[x:=true]> seen) y); lia.
Qed.

Lemma unseen_le_length (U : list Syntax) (seen : gmap Syntax bool) :
  (unseen seen U <= length U)%nat.
Proof. induction U as [|y U IH]; simpl; [lia|]. destruct (seenAt seen y); lia. Qed.

Section WalkerFacts.

Context {A : Type}.
Variable h : Heap.
Variables before after : Syntax -> A -> A.

Let State : Type := gmap Syntax bool * A.

Lemma walkEach_app (w : Syntax -> State -> outcome State) (l1 l2 : list Syntax) (st : State) :
  walkEach w (l1 ++ l2) st = walkEach w l1 st ;> walkEach w l2.
Proof.
  revert st. induction l1 as [|y l1 IH]; intros st; simpl; [done|].
  destruct (w y st); simpl; auto.
Qed.

(** What [walk] does at a node: nothing when the node is seen; otherwise
    it marks the node, calls [before], goes on to the nodes of the rule in
    order, and calls [after]. *)
Lemma walk_unfold (fuel : nat) (k : Kind) (p : pointer) (st : State) :
  walk h before after (S fuel) (Ptr k p) st =
  if seenAt (fst st) (Ptr k p) then Done st
  else
    let st1 := (<[Ptr k p := true]> (fst st), before (Ptr k p) (snd st)) in
    match rule h k p with
    | Ok cs =>
        walkEach (walk h before after fuel) cs st1 ;>
        (fun st' => Done (fst st', after (Ptr k p) (snd st')))
    | Panic m => Panicked m st1
    end.
Proof.
  simpl. destruct (seenAt (fst st) (Ptr k p)); [done|].
  destruct k, p as [a|]; simpl; try reflexivity;
    unfold exprFields, initFields, typeFields, stmtFields;
    repeat first
      [ reflexivity
      | progress simpl
      | rewrite walkEach_app
      | match goal with
        | |- context [walk h before after ?f ?y ?s] =>
            destruct (walk h before after f y s)
        | |- context [walkEach ?w ?l ?s] =>
            destruct (walkEach w l s)
        end ].
Qed.

(** *** The visited set only grows *)

Lemma walkEach_grows (w : Syntax -> State -> outcome State) :
  (forall y st st', finalState (w y st) = Some st' -> grows (fst st) (fst st')) ->
  forall l st st', finalState (walkEach w l st) = Some st' -> grows (fst st) (fst st').
Proof.
  intros Hw. induction l as [|y l IH]; intros st st' Hr; simpl in Hr.
  - injection Hr as <-. apply grows_refl.
  - destruct (w y st) as [s1|m s1|] eqn:E; simpl in Hr.
    + eapply grows_trans; [apply (Hw y st s1); by rewrite E | by apply IH].
    + injection Hr as <-. apply (Hw y st s1). by rewrite E.
    + discriminate.
Qed.

Lemma walk_grows (fuel : nat) (x : Syntax) (st st' : State) :
  finalState (walk h before after fuel x st) = Some st' -> grows (fst st) (fst st').
Proof.
  revert x st st'. induction fuel as [|fuel IH]; intros x st st' Hr; [discriminate|].
  destruct x as [|k p]; [injection Hr as <-; apply grows_refl|].
  rewrite walk_unfold in Hr.
  destruct (seenAt (fst st) (Ptr k p)); [injection Hr as <-; apply grows_refl|].
  cbv zeta in Hr.
  destruct (rule h k p) as [cs|m].
  - destruct (walkEach _ cs _) as [s1|m s1|] eqn:E; simpl in Hr; try discriminate;
      injection Hr as <-; simpl;
      (apply (grows_trans _ (<[Ptr k p:=true]> (fst st)) _); [apply grows_insert|]);
      apply (walkEach_grows _ IH cs _ s1 ltac:(by rewrite E)).
  - injection Hr as <-. apply grows_insert.
Qed.

(** *** Enough fuel *)

Lemma walkEach_fuel (U : list Syntax) (fuel : nat) :
  (forall y st, In y U -> (unseen (fst st) U < fuel)%nat ->
                walk h before after fuel y st <> OutOfFuel) ->
  forall l st, Forall (fun y => In y U) l -> (unseen (fst st) U < fuel)%nat ->
    walkEach (walk h before after fuel) l st <> OutOfFuel.
Proof.
  intros Hw. induction l as [|y l IH]; intros st Hl Hst; simpl; [done|].
  inversion Hl as [|? ? Hy Hl']; subst.
  destruct (walk h before after fuel y st) as [s1|m s1|] eqn:E; simpl.
  - apply IH; [done|].
    assert (grows (fst st) (fst s1)) as Hg by (apply (walk_grows fuel y); by rewrite E).
    pose proof (unseen_grows U _ _ Hg). lia.
  - done.
  - exfalso. by apply (Hw y st Hy Hst).
Qed.

Lemma walk_fuel (U : list Syntax) (fuel : nat) (x : Syntax) (st : State) :
  closed h U -> In x U -> (unseen (fst st) U < fuel)%nat ->
  walk h before after fuel x st <> OutOfFuel.
Proof.
  intros HU. revert x st. induction fuel as [|fuel IH]; intros x st Hx Hst; [lia|].
  destruct x as [|k p]; [done|].
  rewrite walk_unfold.
  destruct (seenAt (fst st) (Ptr k p)) eqn:Hseen; [done|].
  cbv zeta.
  destruct (rule h k p) as [cs|m] eqn:Hrule; [|done].
  pose proof (unseen_insert U (fst st) (Ptr k p) Hx Hseen) as Hlt.
  assert (walkEach (walk h before after fuel) cs
            (<[Ptr k p:=true]> (fst st), before (Ptr k p) (snd st)) <> OutOfFuel) as Hne.
  { apply (walkEach_fuel U fuel); simpl; [auto | | lia].
    apply List.Forall_forall. intros y Hy. apply (HU (Ptr k p)); [done|].
    unfold edge. simpl. by rewrite Hrule. }
  destruct (walkEach _ cs _); simpl; done.
Qed.

(** *** More fuel changes nothing *)

Lemma walkEach_more (w w' : Syntax -> State -> outcome State) :
  (forall y st, w y st <> OutOfFuel -> w' y st = w y st) ->
  forall l st, walkEach w l st <> OutOfFuel -> walkEach w' l st = walkEach w l st.
Proof.
  intros Hw. induction l as [|y l IH]; intros st Hr; simpl in *; [done|].
  destruct (w y st) as [s1|m s1|] eqn:E; simpl in *.
  - rewrite Hw, E by (by rewrite E). simpl. by apply IH.
  - rewrite Hw, E by (by rewrite E). done.
  - done.
Qed.

Lemma walk_more (fuel fuel' : nat) (x : Syntax) (st : State) :
  (fuel <= fuel')%nat ->
  walk h before after fuel x st <> OutOfFuel ->
  walk h before after fuel' x st = walk h before after fuel x st.
Proof.
  revert fuel' x st. induction fuel as [|fuel IH]; intros fuel' x st Hle Hr; [done|].
  destruct fuel' as [|fuel']; [lia|].
  destruct x as [|k p]; [done|].
  rewrite !walk_unfold in *.
  destruct (seenAt (fst st) (Ptr k p)); [done|].
  cbv zeta in *.
  destruct (rule h k p) as [cs|m]; [|done].
  rewrite (walkEach_more (walk h before after fuel) (walk h before after fuel')); [done| |].
  - intros y st0 Hy. apply IH; [lia | done].
  - intros E. by rewrite E in Hr.
Qed.

End WalkerFacts.

(** *** The run does not depend on what the callbacks do *)

Section Simulation.

Context {A B : Type}.
Variable h : Heap.
Variables (beforeA afterA : Syntax -> A -> A) (beforeB afterB : Syntax -> B -> B).
Variable R : A -> B -> Prop.
Hypothesis before_R : forall x a b, R a b -> R (beforeA x a) (beforeB x b).
Hypothesis after_R : forall x a b, R a b -> R (afterA x a) (afterB x b).

Lemma walkEach_sim (wA : Syntax -> gmap Syntax bool * A -> outcome (gmap Syntax bool * A))
    (wB : Syntax -> gmap Syntax bool * B -> outcome (gmap Syntax bool * B)) :
  (forall y seen a b, R a b -> sameRun R (wA y (seen, a)) (wB y (seen, b))) ->
  forall l seen a b, R a b ->
    sameRun R (walkEach wA l (seen, a)) (walkEach wB l (seen, b)).
Proof.
  intros Hw. induction l as [|y l IH]; intros seen a b Hab; simpl; [done|].
  specialize (Hw y seen a b Hab).
  destruct (wA y (seen, a)) as [[s1 a1]|m1 [s1 a1]|],
           (wB y (seen, b)) as [[s2 b2]|m2 [s2 b2]|]; simpl in *; try done.
  destruct Hw as [-> Hab']. by apply IH.
Qed.

Lemma walk_sim (fuel : nat) (x : Syntax) (seen : gmap Syntax bool) (a : A) (b : B) :
  R a b ->
  sameRun R (walk h beforeA afterA fuel x (seen, a))
            (walk h beforeB afterB fuel x (seen, b)).
Proof.
  revert x seen a b. induction fuel as [|fuel IH]; intros x seen a b Hab; [done|].
  destruct x as [|k p]; [done|].
  rewrite !walk_unfold. simpl fst. simpl snd.
  destruct (seenAt seen (Ptr k p)); [done|].
  cbv zeta.
  destruct (rule h k p) as [cs|m]; [|simpl; auto].
  pose proof (walkEach_sim _ _ IH cs (<[Ptr k p:=true]> seen)
                _ _ (before_R (Ptr k p) a b Hab)) as Hcs.
  destruct (walkEach (walk h beforeA afterA fuel) cs _) as [[s1 a1]|m1 [s1 a1]|],
           (walkEach (walk h beforeB afterB fuel) cs _) as [[s2 b2]|m2 [s2 b2]|];
    simpl in *; try done.
  destruct Hcs as [-> Hab']. auto.
Qed.

End Simulation.

(** ** The events of a run *)

Lemma entered_app (t1 t2 : list Event) : entered (t1 ++ t2) = entered t1 ++ entered t2.
Proof. induction t1 as [|[x|x] t1 IH]; simpl; by rewrite ?IH. Qed.

Lemma exited_app (t1 t2 : list Event) : exited (t1 ++ t2) = exited t1 ++ exited t2.
Proof. induction t1 as [|[x|x] t1 IH]; simpl; by rewrite ?IH. Qed.

Lemma NoDup_app_In {T : Type} (l1 l2 : list T) :
  List.NoDup l1 -> List.NoDup l2 -> (forall x, In x l1 -> In x l2 -> False) -> List.NoDup (l1 ++ l2).
Proof.
  intros H1 H2 Hd. induction l1 as [|a l1 IH]; simpl; [done|].
  apply List.NoDup_cons_iff in H1 as [Ha H1].
  apply List.NoDup_cons_iff. split.
  - rewrite List.in_app_iff. intros [?|?]; [done|]. apply (Hd a); simpl; auto.
  - apply IH; [done|]. intros x Hx. apply Hd. simpl. auto.
Qed.

Lemma grows_unseen (s1 s2 : gmap Syntax bool) (y : Syntax) :
  grows s1 s2 -> seenAt s2 y = false -> seenAt s1 y = false.
Proof.
  intros Hg H2. destruct (seenAt s1 y) eqn:E; [|done].
  by rewrite (Hg y E) in H2.
Qed.

Section RunSpec.

Variable h : Heap.

(** Nothing is done at nodes that are nil or seen. *)
Lemma runSpec_skip (roots : list Syntax) (seen : gmap Syntax bool) :
  (forall c, In c roots -> c = nilSyntax \/ seenAt seen c = true) ->
  runSpec h roots seen seen [] None.
Proof.
  intros Hr. split; simpl; try done.
  - apply grows_refl.
  - constructor.
  - intros y. split; [done|]. intros [H1 H2]. by rewrite H1 in H2.
  - constructor.
Qed.

(** A run that returned, followed by another run. *)
Lemma runSpec_seq (y : Syntax) (l : list Syntax) (s0 s1 s2 : gmap Syntax bool)
    (n1 n2 : list Event) (e : option string) :
  runSpec h [y] s0 s1 n1 None -> runSpec h l s1 s2 n2 e ->
  runSpec h (y :: l) s0 s2 (n1 ++ n2) e.
Proof.
  intros [G1 N1 E1 XN1 X1 R1 DX1 DR1 DC1 DU1 _] [G2 N2 E2 XN2 X2 R2 DX2 DR2 DC2 DU2 PL2].
  split; rewrite ?entered_app, ?exited_app.
  - by eapply grows_trans.
  - apply NoDup_app_In; [done..|].
    intros x H1 H2. apply E1 in H1 as [H1 _]. apply E2 in H2 as [_ H2].
    by rewrite H1 in H2.
  - intros x. rewrite List.in_app_iff, E1, E2. split.
    + intros [[H1 H0]|[H2 H1]]; split; auto. by eapply grows_unseen.
    + intros [H2 H0]. destruct (seenAt s1 x) eqn:E; auto.
  - apply NoDup_app_In; [done..|].
    intros x H1 H2. apply X1, E1 in H1 as [H1 _]. apply X2, E2 in H2 as [_ H2].
    by rewrite H1 in H2.
  - intros x. rewrite !List.in_app_iff. intros [?|?]; auto.
  - intros x. rewrite List.in_app_iff. intros [Hx|Hx].
    + destruct (R1 x Hx) as (c & [<-|[]] & Hc). exists y. simpl. auto.
    + destruct (R2 x Hx) as (c & Hin & Hc). exists c. simpl. auto.
  - intros -> x. rewrite !List.in_app_iff. intros [?|?]; auto.
  - intros -> c [<-|Hc].
    + destruct (DR1 eq_refl y) as [?|?]; simpl; auto.
    + auto.
  - intros -> x z. rewrite List.in_app_iff. intros [Hx|Hx] Hxz.
    + destruct (DC1 eq_refl x z Hx Hxz) as [?|?]; auto.
    + eauto.
  - intros -> k p. rewrite List.in_app_iff. intros [Hx|Hx]; eauto.
  - intros m ->. destruct (PL2 m eq_refl) as (k & p & n2' & -> & Hrule & Hbefore).
    exists k, p, (n1 ++ n2'). split; [by rewrite app_assoc|]. split; [done|].
    intros k' p'. rewrite entered_app, List.in_app_iff. intros [Hx|Hx]; eauto.
Qed.

(** A run that panicked: what follows is not run. *)
Lemma runSpec_seq_panic (y : Syntax) (l : list Syntax) (s0 s1 : gmap Syntax bool)
    (n1 : list Event) (m : string) :
  runSpec h [y] s0 s1 n1 (Some m) -> runSpec h (y :: l) s0 s1 n1 (Some m).
Proof.
  intros [G1 N1 E1 XN1 X1 R1 DX1 DR1 DC1 DU1 PL1]. split; try done.
  intros x Hx. destruct (R1 x Hx) as (c & [<-|[]] & Hc). exists y. simpl. auto.
Qed.

(** A node that is entered and whose rule panics. *)
Lemma runSpec_node_panic (k : Kind) (p : pointer) (seen : gmap Syntax bool) (m : string) :
  seenAt seen (Ptr k p) = false -> rule h k p = Panic m ->
  runSpec h [Ptr k p] seen (<[Ptr k p := true]> seen) [Enter (Ptr k p)] (Some m).
Proof.
  intros Hseen Hrule. split; simpl; try done.
  - apply grows_insert.
  - repeat constructor. by intros [].
  - intros y. rewrite seenAt_insert. split.
    + intros [<-|[]]. auto.
    + intros [[->|H1] H0]; [auto|]. by rewrite H1 in H0.
  - constructor.
  - intros y [<-|[]]. exists (Ptr k p). split; [by left | apply rtc_refl].
  - intros m' [= <-]. exists k, p, []. split; [done|]. split; [done|].
    by intros k' p' [].
Qed.

(** A node that is entered, the run over the nodes of its rule, and its
    exit when that run returned. *)
Lemma runSpec_node (k : Kind) (p : pointer) (cs : list Syntax)
    (seen seen' : gmap Syntax bool) (new : list Event) (e : option string) :
  seenAt seen (Ptr k p) = false -> rule h k p = Ok cs ->
  runSpec h cs (<[Ptr k p := true]> seen) seen' new e ->
  runSpec h [Ptr k p] seen seen'
    (Enter (Ptr k p) :: new ++ match e with Some _ => [] | None => [Exit (Ptr k p)] end) e.
Proof.
  intros Hseen Hrule [G N E XN X R DX DR DC DU PL].
  set (x := Ptr k p) in *.
  assert (Hent : entered (Enter x :: new ++ match e with Some _ => [] | None => [Exit x] end) = x :: entered new).
  { simpl. rewrite entered_app. destruct e; simpl; by rewrite app_nil_r. }
  assert (Hexi : exited (Enter x :: new ++ match e with Some _ => [] | None => [Exit x] end)
                 = exited new ++ match e with Some _ => [] | None => [x] end).
  { simpl. rewrite exited_app. by destruct e. }
  assert (Hx' : seenAt seen' x = true) by (apply G, seenAt_insert_same).
  assert (Hnew : ~ In x (entered new)).
  { intros Hin. apply E in Hin as [_ Hin]. by rewrite seenAt_insert_same in Hin. }
  split; rewrite ?Hent, ?Hexi.
  - eapply grows_trans; [apply grows_insert | done].
  - by apply List.NoDup_cons.
  - intros y. simpl. rewrite E. split.
    + intros [<-|[H1 H0]]; [auto|]. split; [done|].
      eapply grows_unseen; [apply grows_insert | done].
    + intros [H1 H0]. destruct (decide (x = y)) as [|Hne]; [auto|]. right.
      split; [done|]. destruct (seenAt (<[x:=true]> seen) y) eqn:Ey; [|done].
      apply seenAt_insert in Ey as [?|Ey]; [done|]. by rewrite Ey in H0.
  - apply NoDup_app_In; [done | destruct e; repeat constructor; by intros [] |].
    intros y Hy Hb. destruct e; [done|]. destruct Hb as [<-|[]]. auto.
  - intros y. rewrite List.in_app_iff. simpl. intros [Hy|Hy]; [auto|].
    destruct e; [done|]. destruct Hy as [<-|[]]. auto.
  - intros y [<-|Hy].
    + exists x. split; [by left | apply rtc_refl].
    + destruct (R y Hy) as (c & Hc & Hcy). exists x. split; [by left|].
      eapply rtc_l; [|exact Hcy]. unfold edge, x. simpl. by rewrite Hrule.
  - intros -> y. rewrite List.in_app_iff. simpl. intros [<-|Hy]; auto.
  - intros -> c [<-|[]]. auto.
  - intros -> y z [<-|Hy] Hyz.
    + apply (DR eq_refl). unfold edge, x in Hyz. simpl in Hyz. by rewrite Hrule in Hyz.
    + eauto.
  - intros -> k' p' [[= <- <-]|Hy]; eauto.
  - intros m ->. destruct (PL m eq_refl) as (k' & p' & new' & -> & Hr' & Hbefore).
    exists k', p', (Enter x :: new'). split; [by rewrite app_nil_r|]. split; [done|].
    intros k'' p'' [[= <- <-]|Hy]; eauto.
Qed.

End RunSpec.

(** ** The logged run meets [runSpec] *)

Section Trace.

Variable h : Heap.

Let State : Type := gmap Syntax bool * list Event.

Lemma walkEach_runs (w : Syntax -> State -> outcome State) :
  (forall x seen t st', finalState (w x (seen, t)) = Some st' ->
     exists new, snd st' = t ++ new /\
       runSpec h [x] seen (fst st') new (ending (w x (seen, t)))) ->
  forall l seen t st', finalState (walkEach w l (seen, t)) = Some st' ->
    exists new, snd st' = t ++ new /\
      runSpec h l seen (fst st') new (ending (walkEach w l (seen, t))).
Proof.
  intros Hw. induction l as [|y l IH]; intros seen t st' Hr; simpl in *.
  - injection Hr as <-. exists []. simpl. split; [by rewrite app_nil_r|].
    apply runSpec_skip. by intros c [].
  - pose proof (Hw y seen t) as Hy.
    destruct (w y (seen, t)) as [[s1 t1]|m [s1 t1]|]; simpl in *; [| |done].
    + destruct (Hy _ eq_refl) as (n1 & Ht1 & Hs1). simpl in Ht1, Hs1. subst t1.
      destruct (IH s1 (t ++ n1) st' Hr) as (n2 & Ht & Hs2).
      exists (n1 ++ n2). split; [by rewrite Ht, app_assoc|].
      by eapply runSpec_seq.
    + injection Hr as <-. destruct (Hy _ eq_refl) as (n1 & Ht & Hs1).
      exists n1. split; [done|]. by apply runSpec_seq_panic.
Qed.

Lemma walk_runs (fuel : nat) (x : Syntax) (seen : gmap Syntax bool)
    (t : list Event) (st' : State) :
  finalState (walk h logEnter logExit fuel x (seen, t)) = Some st' ->
  exists new, snd st' = t ++ new /\
    runSpec h [x] seen (fst st') new (ending (walk h logEnter logExit fuel x (seen, t))).
Proof.
  revert x seen t st'. induction fuel as [|fuel IH]; intros x seen t st' Hr; [done|].
  destruct x as [|k p].
  { simpl in *. injection Hr as <-. exists []. split; [by rewrite app_nil_r|].
    apply runSpec_skip. intros c [<-|[]]. by left. }
  rewrite walk_unfold in *. simpl fst in *. simpl snd in *.
  destruct (seenAt seen (Ptr k p)) eqn:Hseen.
  { simpl in *. injection Hr as <-. exists []. split; [by rewrite app_nil_r|].
    apply runSpec_skip. intros c [<-|[]]. by right. }
  cbv zeta in *.
  destruct (rule h k p) as [cs|m] eqn:Hrule.
  - pose proof (walkEach_runs _ IH cs (<[Ptr k p:=true]> seen) (logEnter (Ptr k p) t)) as Hcs.
    destruct (walkEach _ cs _) as [[s1 t1]|m [s1 t1]|]; simpl in *; [| |done].
    + injection Hr as <-. destruct (Hcs _ eq_refl) as (new & Ht1 & Hs1).
      simpl in *. subst t1.
      exists (Enter (Ptr k p) :: new ++ [Exit (Ptr k p)]). split.
      * unfold logExit, logEnter. by rewrite <- !app_assoc.
      * by apply (runSpec_node h k p cs seen s1 new None).
    + injection Hr as <-. destruct (Hcs _ eq_refl) as (new & Ht1 & Hs1).
      simpl in *. subst t1.
      exists (Enter (Ptr k p) :: new ++ []). split.
      * unfold logEnter. by rewrite app_nil_r, <- !app_assoc.
      * by apply (runSpec_node h k p cs seen s1 new (Some m)).
  - simpl in *. injection Hr as <-. exists [Enter (Ptr k p)]. split; [done|].
    by apply runSpec_node_panic.
Qed.

(** The nodes seen from the start have nothing below them. *)
Lemma seen0_leaf (y : Syntax) : seenAt seen0 y = true -> descends h y = [].
Proof.
  unfold seen0. rewrite !seenAt_insert. unfold seenAt. rewrite lookup_empty. simpl.
  intros H. repeat (destruct H as [<-|H]; [reflexivity|]). discriminate.
Qed.

(** A run of [Walk] that returned has entered exactly the nodes that the
    descent reaches from the root and that were not seen from the start. *)
Lemma runSpec_entered_reaches (root : Syntax) (seen' : gmap Syntax bool) (t : list Event) :
  runSpec h [root] seen0 seen' t None ->
  forall y, In y (entered t) <-> reaches h root y /\ seenAt seen0 y = false.
Proof.
  intros [G N E XN X R DX DR DC DU PL] y. split.
  - intros Hy. split.
    + destruct (R y Hy) as (c & [<-|[]] & Hc). done.
    + by apply E in Hy as [_ ?].
  - intros [Hreach H0]. apply E. split; [|done].
    assert (Hall : forall z, reaches h root z -> z = nilSyntax \/ seenAt seen' z = true).
    { apply (rtc_ind_r (fun z => z = nilSyntax \/ seenAt seen' z = true) root).
      - apply (DR eq_refl). by left.
      - intros u v Hu Huv IH. destruct IH as [->|Hseen]; [destruct Huv|].
        destruct (seenAt seen0 u) eqn:E0.
        + unfold edge in Huv. rewrite (seen0_leaf u E0) in Huv. destruct Huv.
        + apply (DC eq_refl u v); [|done]. by apply E. }
    destruct (Hall y Hreach) as [->|?]; [discriminate|done].
Qed.

End Trace.

(** ** Runs of [Walk] *)

Lemma closedb_sound (h : Heap) (U : list Syntax) : closedb h U = true -> closed h U.
Proof.
  unfold closedb, closed, edge. intros H x y Hx Hy.
  rewrite forallb_forall in H. specialize (H x Hx).
  rewrite forallb_forall in H. specialize (H y Hy).
  apply existsb_exists in H as (z & Hz & Heq).
  apply bool_decide_eq_true in Heq. by subst.
Qed.

Section WalkRuns.

Context {A : Type}.
Variable h : Heap.
Variables before after : Syntax -> A -> A.

(** With a rule for every node, no run panics. *)
Lemma walk_ruled (U : list Syntax) (fuel : nat) (x : Syntax)
    (st : gmap Syntax bool * A) :
  closed h U -> ruled h U -> In x U -> grows seen0 (fst st) ->
  ending (walk h before after fuel x st) = None.
Proof.
  intros HU Hruled. revert x st.
  induction fuel as [|fuel IH]; intros x st Hx Hst; [done|].
  destruct x as [|k p]; [done|].
  rewrite walk_unfold.
  destruct (seenAt (fst st) (Ptr k p)) eqn:Hseen; [done|].
  cbv zeta.
  destruct (Hruled k p Hx (grows_unseen _ _ _ Hst Hseen)) as [cs Hrule].
  rewrite Hrule.
  assert (Hcs : Forall (fun y => In y U) cs).
  { apply List.Forall_forall. intros y Hy. apply (HU (Ptr k p)); [done|].
    unfold edge. simpl. by rewrite Hrule. }
  assert (Hst1 : grows seen0 (<[Ptr k p:=true]> (fst st))).
  { eapply grows_trans; [exact Hst | apply grows_insert]. }
  assert (Hend : forall l st1, Forall (fun y => In y U) l -> grows seen0 (fst st1) ->
            ending (walkEach (walk h before after fuel) l st1) = None).
  { induction l as [|y l IHl]; intros st1 Hl Hg; [done|].
    inversion Hl as [|? ? Hy Hl']; subst. simpl.
    pose proof (IH y st1 Hy Hg) as Hy1.
    destruct (walk h before after fuel y st1) as [s1|m s1|] eqn:E; simpl in *;
      [|done|done].
    apply IHl; [done|]. eapply grows_trans; [exact Hg|].
    apply (walk_grows h before after fuel y st1). by rewrite E. }
  specialize (Hend cs (<[Ptr k p:=true]> (fst st), before (Ptr k p) (snd st)) Hcs Hst1).
  destruct (walkEach _ cs _); simpl in *; done.
Qed.

(** Any callbacks see the events of the logged run, in order. *)
Lemma Walk_replay (fuel : nat) (root : Syntax) (a : A) :
  Walk h before after fuel root a =
  mapOutcome (fun t => replay before after t a) (Walk h logEnter logExit fuel root []).
Proof.
  unfold Walk.
  pose proof (walk_sim h before after logEnter logExit
                (fun s t => s = replay before after t a)) as Hsim.
  specialize (Hsim ltac:(intros x s t ->; unfold replay, logEnter;
                         by rewrite fold_left_app)
                   ltac:(intros x s t ->; unfold replay, logExit;
                         by rewrite fold_left_app)
                   fuel root seen0 a [] eq_refl).
  destruct (walk h before after fuel root (seen0, a)) as [[s1 a1]|m1 [s1 a1]|],
           (walk h logEnter logExit fuel root (seen0, [])) as [[s2 t2]|m2 [s2 t2]|];
    simpl in *; try done.
  - destruct Hsim as [_ ->]. done.
  - destruct Hsim as (-> & _ & ->). done.
Qed.

End WalkRuns.

Lemma replay_Preorder {A : Type} (f : Syntax -> A -> A) (t : list Event) (a : A) :
  replay f noop t a = callAll f (entered t) a.
Proof.
  revert a. induction t as [|[x|x] t IH]; intros a; simpl; auto.
Qed.

Lemma replay_Postorder {A : Type} (f : Syntax -> A -> A) (t : list Event) (a : A) :
  replay noop f t a = callAll f (exited t) a.
Proof.
  revert a. induction t as [|[x|x] t IH]; intros a; simpl; auto.
Qed.

(** [f] is called by [Preorder] on the nodes the logged run enters, and
    by [Postorder] on the nodes it leaves, in that order. *)
Lemma Preorder_calls {A : Type} (h : Heap) (fuel : nat) (root : Syntax)
    (f : Syntax -> A -> A) (a : A) :
  Preorder h fuel root f a =
  mapOutcome (fun t => callAll f (entered t) a) (Walk h logEnter logExit fuel root []).
Proof.
  unfold Preorder. change (fun (_ : Syntax) (a0 : A) => a0) with (@noop A).
  rewrite Walk_replay.
  destruct (Walk h logEnter logExit fuel root []); simpl; by rewrite ?replay_Preorder.
Qed.

Lemma Postorder_calls {A : Type} (h : Heap) (fuel : nat) (root : Syntax)
    (f : Syntax -> A -> A) (a : A) :
  Postorder h fuel root f a =
  mapOutcome (fun t => callAll f (exited t) a) (Walk h logEnter logExit fuel root []).
Proof.
  unfold Postorder. change (fun (_ : Syntax) (a0 : A) => a0) with (@noop A).
  rewrite Walk_replay.
  destruct (Walk h logEnter logExit fuel root []); simpl; by rewrite ?replay_Postorder.
Qed.

Lemma callAll_record (l calls : list Syntax) : callAll record l calls = calls ++ l.
Proof.
  revert calls. induction l as [|y l IH]; intros calls; unfold callAll in *; simpl.
  - by rewrite app_nil_r.
  - rewrite IH. unfold record. by rewrite <- app_assoc.
Qed.

(** The logged run of [Walk] meets [runSpec] from the initial map. *)
Lemma Walk_runs (h : Heap) (fuel : nat) (root : Syntax) (t : list Event) :
  finalState (Walk h logEnter logExit fuel root []) = Some t ->
  exists seen', runSpec h [root] seen0 seen' t
                  (ending (Walk h logEnter logExit fuel root [])).
Proof.
  unfold Walk. intros Hr.
  pose proof (walk_runs h fuel root seen0 []) as Hw.
  destruct (walk h logEnter logExit fuel root (seen0, [])) as [[s1 t1]|m [s1 t1]|];
    simpl in *; [| |done]; injection Hr as <-;
    destruct (Hw _ eq_refl) as (new & Ht & Hs); simpl in *; subst; eauto.
Qed.

Lemma Walk_fuel {A : Type} (h : Heap) (before after : Syntax -> A -> A)
    (U : list Syntax) (fuel : nat) (root : Syntax) (a : A) :
  closed h U -> In root U -> (length U < fuel)%nat ->
  Walk h before after fuel root a <> OutOfFuel.
Proof.
  intros HU Hroot Hfuel. unfold Walk.
  pose proof (walk_fuel h before after U fuel root (seen0, a) HU Hroot) as Hw.
  pose proof (unseen_le_length U seen0). simpl in Hw.
  destruct (walk h before after fuel root (seen0, a)); simpl; try done.
  intros _. apply Hw; [lia | done].
Qed.

(** ** Single visit *)

(** The type switch of [walk] panics on two sorts of node that are not
    in the initial map: a [*Prefix], which has no case, and the nil
    [*Prog], which has a case that reads a field. A graph without them
    has a rule for every node. *)
Lemma ruled_without_prefix_and_nil_prog (h : Heap) (U : list Syntax) :
  (forall p, ~ In (Ptr KPrefix p) U) -> ~ In (Ptr KProg None) U -> ruled h U.
Proof.
  intros Hprefix Hprog k p Hin Hseen.
  destruct k; try (destruct p as [a|]); simpl; eauto;
    try (exfalso; vm_compute in Hseen; discriminate Hseen).
  - by destruct Hprog.
  - by destruct (Hprefix (Some a)).
  - by destruct (Hprefix None).
Qed.

(** C1, as the code has it. On a finite graph, with fuel beyond the
    number of its nodes, [Walk] ends; [Preorder] calls [f] on the nodes
    the run enters and [Postorder] on the nodes it leaves, whatever [f]
    does; no node is entered or left twice, also when the run panics; a
    run that returns has entered, and left, exactly the nodes that the
    descent of [walk] reaches from the root and that were not seen from
    the start; and the run returns when the graph holds no [*Prefix] and
    no nil [*Prog], the nodes on which the type switch panics. The
    descent is the one of [walk] (the relation [edge]), not the one of
    [GetChildren]. *)
Theorem Walk_single_visit (h : Heap) (U : list Syntax) (root : Syntax) (fuel : nat) :
  closed h U -> In root U -> (length U < fuel)%nat ->
  exists r : outcome (list Event),
    Walk h logEnter logExit fuel root [] = r /\ r <> OutOfFuel /\
    (forall (A : Type) (f : Syntax -> A -> A) (a : A),
       Preorder h fuel root f a = mapOutcome (fun t => callAll f (entered t) a) r /\
       Postorder h fuel root f a = mapOutcome (fun t => callAll f (exited t) a) r) /\
    (forall t, finalState r = Some t ->
       List.NoDup (entered t) /\ List.NoDup (exited t)) /\
    (forall t, r = Done t -> forall y,
       (In y (entered t) <-> reaches h root y /\ seenAt seen0 y = false) /\
       (In y (exited t) <-> reaches h root y /\ seenAt seen0 y = false)) /\
    ((forall p, ~ In (Ptr KPrefix p) U) -> ~ In (Ptr KProg None) U ->
     isDone r = true).
Proof.
  intros HU Hroot Hfuel.
  exists (Walk h logEnter logExit fuel root []).
  split; [done|]. split; [by apply (Walk_fuel h logEnter logExit U)|].
  split; [intros A f a; split; [apply Preorder_calls | apply Postorder_calls]|].
  split; [|split].
  - intros t Ht. destruct (Walk_runs h fuel root t Ht) as [seen' Hs].
    split; [apply (run_entered_once _ _ _ _ _ _ Hs) | apply (run_exited_once _ _ _ _ _ _ Hs)].
  - intros t Hr y.
    assert (Ht : finalState (Walk h logEnter logExit fuel root []) = Some t)
      by (by rewrite Hr).
    destruct (Walk_runs h fuel root t Ht) as [seen' Hs].
    rewrite Hr in Hs. simpl in Hs.
    pose proof (runSpec_entered_reaches h root seen' t Hs y) as Hy.
    split; [exact Hy|]. rewrite <- Hy. split.
    + apply (run_exited _ _ _ _ _ _ Hs).
    + apply (run_done_exited _ _ _ _ _ _ Hs eq_refl).
  - intros Hprefix Hprog.
    pose proof (ruled_without_prefix_and_nil_prog h U Hprefix Hprog) as Hruled.
    pose proof (Walk_fuel h logEnter logExit U fuel root [] HU Hroot Hfuel) as Hne.
    unfold Walk in *.
    pose proof (walk_ruled h logEnter logExit U fuel root (seen0, [])
                  HU Hruled Hroot (grows_refl seen0)) as He.
    destruct (walk h logEnter logExit fuel root (seen0, [])); simpl in *; done.
Qed.

Lemma Walk_single_visit_witness :
  exists r : outcome (list Event),
    Walk cycleHeap logEnter logExit 7 (Ptr KExpr (Some 1%positive)) [] = r /\
    r <> OutOfFuel /\
    (forall (A : Type) (f : Syntax -> A -> A) (a : A),
       Preorder cycleHeap 7 (Ptr KExpr (Some 1%positive)) f a =
         mapOutcome (fun t => callAll f (entered t) a) r /\
       Postorder cycleHeap 7 (Ptr KExpr (Some 1%positive)) f a =
         mapOutcome (fun t => callAll f (exited t) a) r) /\
    (forall t, finalState r = Some t ->
       List.NoDup (entered t) /\ List.NoDup (exited t)) /\
    (forall t, r = Done t -> forall y,
       (In y (entered t) <->
        reaches cycleHeap (Ptr KExpr (Some 1%positive)) y /\ seenAt seen0 y = false) /\
       (In y (exited t) <->
        reaches cycleHeap (Ptr KExpr (Some 1%positive)) y /\ seenAt seen0 y = false)) /\
    ((forall p, ~ In (Ptr KPrefix p) cycleNodes) -> ~ In (Ptr KProg None) cycleNodes ->
     isDone r = true).
Proof.
  apply (Walk_single_visit cycleHeap cycleNodes (Ptr KExpr (Some 1%positive)) 7).
  - apply closedb_sound. vm_compute. reflexivity.
  - simpl. auto.
  - simpl. lia.
Defined.

(** C1 fails as stated: the prefix of an initializer is one of the
    children [GetChildren] returns for it, and neither [Preorder] nor
    [Postorder] calls [f] on it; and [Postorder] from a prefix never
    calls [f] on that prefix, because the run panics before. *)
Lemma Preorder_skips_prefix :
  In (Ptr KPrefix (Some 1%positive))
     (Init_GetChildren (inits initHeap 1%positive)) /\
  Preorder initHeap 5 (Ptr KInit (Some 1%positive)) record [] =
    Done [Ptr KInit (Some 1%positive); Ptr KExpr (Some 2%positive);
          Ptr KSymbolLiteral (Some 2%positive)] /\
  Postorder initHeap 5 (Ptr KInit (Some 1%positive)) record [] =
    Done [Ptr KSymbolLiteral (Some 2%positive); Ptr KExpr (Some 2%positive);
          Ptr KInit (Some 1%positive)] /\
  ~ In (Ptr KPrefix (Some 1%positive))
       [Ptr KInit (Some 1%positive); Ptr KExpr (Some 2%positive);
        Ptr KSymbolLiteral (Some 2%positive)] /\
  Postorder zeroHeap 5 (Ptr KPrefix (Some 1%positive)) record [] =
    Panicked "walk: unexpected type *cc.Prefix" [].
Proof.
  split; [simpl; auto|]. split; [reflexivity|]. split; [reflexivity|].
  split; [|reflexivity].
  simpl. intros [H|[H|[H|[]]]]; discriminate.
Qed.

(** ** Termination *)

(** C6. On a finite graph [Walk] ends, by returning or by a panic, and
    all budgets beyond the number of nodes give the same outcome: the
    test of the [seen] map bounds the depth of the recursion, cycles and
    shared nodes included. *)
Theorem Walk_terminates {A : Type} (h : Heap) (before after : Syntax -> A -> A)
    (U : list Syntax) (root : Syntax) (a : A) :
  closed h U -> In root U ->
  exists r, r <> OutOfFuel /\
    forall fuel, (length U < fuel)%nat -> Walk h before after fuel root a = r.
Proof.
  intros HU Hroot.
  exists (Walk h before after (S (length U)) root a).
  split; [apply (Walk_fuel h before after U); [done|done|lia]|].
  intros fuel Hfuel. unfold Walk.
  pose proof (walk_fuel h before after U (S (length U)) root (seen0, a) HU Hroot) as Hne.
  pose proof (unseen_le_length U seen0).
  rewrite (walk_more h before after (S (length U)) fuel); [done|lia|].
  apply Hne. simpl. lia.
Qed.

Lemma Walk_terminates_witness :
  exists r, r <> OutOfFuel /\
    forall fuel, (length cycleNodes < fuel)%nat ->
      Walk cycleHeap logEnter logExit fuel (Ptr KExpr (Some 1%positive)) [] = r.
Proof.
  apply (Walk_terminates cycleHeap logEnter logExit cycleNodes).
  - apply closedb_sound. vm_compute. reflexivity.
  - simpl. auto.
Defined.

(** ** A node kind without a rule *)

(** The outcome of a run, though not the caller's state, is the same
    under all callbacks. *)
Lemma Walk_ending {A : Type} (h : Heap) (before after : Syntax -> A -> A)
    (fuel : nat) (root : Syntax) (a : A) :
  ending (Walk h before after fuel root a) =
  ending (Walk h logEnter logExit fuel root []) /\
  isDone (Walk h before after fuel root a) =
  isDone (Walk h logEnter logExit fuel root []).
Proof.
  rewrite (Walk_replay h before after).
  destruct (Walk h logEnter logExit fuel root []); simpl; auto.
Qed.

(** A run that enters a [*Prefix] panics at once with the message of the
    default case, and that node is the last one entered. *)
Lemma Walk_enters_prefix (h : Heap) (fuel : nat) (root : Syntax) (p : pointer)
    (t : list Event) :
  finalState (Walk h logEnter logExit fuel root []) = Some t ->
  In (Ptr KPrefix p) (entered t) ->
  exists t', t = t' ++ [Enter (Ptr KPrefix p)] /\
    Walk h logEnter logExit fuel root [] = Panicked "walk: unexpected type *cc.Prefix" t.
Proof.
  intros Ht Hin.
  destruct (Walk_runs h fuel root t Ht) as [seen' Hs].
  destruct (Walk h logEnter logExit fuel root []) as [t0|m t0|] eqn:Hr;
    simpl in *; [| |done]; injection Ht as ->.
  - destruct (run_done_ruled _ _ _ _ _ _ Hs eq_refl KPrefix p Hin) as [cs Hcs].
    destruct p; discriminate.
  - destruct (run_panic_last _ _ _ _ _ _ Hs m eq_refl)
      as (k & q & t' & -> & Hrule & Hbefore).
    rewrite entered_app in Hin. apply List.in_app_iff in Hin as [Hin|Hin].
    + destruct (Hbefore KPrefix p Hin) as [cs Hcs]. destruct p; discriminate.
    + destruct Hin as [[= -> ->]|[]]. exists t'. split; [done|].
      f_equal. destruct p; simpl in Hrule; by injection Hrule as <-.
Qed.

(** No [*Prefix], nil or not, is in the initial map. *)
Lemma seen0_prefix (p : pointer) : seenAt seen0 (Ptr KPrefix p) = false.
Proof.
  destruct (seenAt seen0 (Ptr KPrefix p)) eqn:E; [|done].
  unfold seen0 in E. rewrite !seenAt_insert in E.
  unfold seenAt in E. rewrite lookup_empty in E. simpl in E.
  repeat (destruct E as [E|E]; [discriminate|]). discriminate.
Qed.

(** A [*Prefix] that the descent reaches is never passed over: the run
    does not return. *)
Lemma Walk_reaches_prefix {A : Type} (h : Heap) (before after : Syntax -> A -> A)
    (fuel : nat) (root : Syntax) (p : pointer) (a : A) :
  reaches h root (Ptr KPrefix p) ->
  isDone (Walk h before after fuel root a) = false.
Proof.
  intros Hreach.
  destruct (Walk_ending h before after fuel root a) as [_ ->].
  destruct (Walk h logEnter logExit fuel root []) as [t|m t|] eqn:Hr; [|done|done].
  exfalso.
  assert (Ht : finalState (Walk h logEnter logExit fuel root []) = Some t)
    by (by rewrite Hr).
  destruct (Walk_runs h fuel root t Ht) as [seen' Hs].
  rewrite Hr in Hs. simpl in Hs.
  assert (Hin : In (Ptr KPrefix p) (entered t)).
  { apply (runSpec_entered_reaches h root seen' t Hs). split; [done|].
    apply seen0_prefix. }
  destruct (Walk_enters_prefix h fuel root p t Ht Hin) as (t' & _ & Hr').
  rewrite Hr in Hr'. discriminate.
Qed.

(** On a finite graph the descent stays inside the graph. *)
Lemma reaches_closed (h : Heap) (U : list Syntax) (root y : Syntax) :
  closed h U -> In root U -> reaches h root y -> In y U.
Proof.
  intros HU Hroot Hy. induction Hy as [|x u v Hxu Huv IH]; [done|].
  apply IH. by apply (HU x).
Qed.

(** C9. [*Prefix] is the kind of node without a case in the type switch
    of [walk]. Whenever the descent of [Walk] reaches such a node, the
    run ends in a panic, whatever the callbacks are: the node is never
    passed over and the run never returns. Unless the graph also holds
    the nil [*Prog] (on which [walk] panics too), the panic is the one of
    the default case and is raised right after [before] was called on a
    [*Prefix], the last node entered. The call of [walk] on a [*Prefix]
    not yet seen itself marks the node, calls [before] and panics; the
    panic is the outcome of the whole run, not a value handed back. *)
Theorem Walk_unexpected_type_panics {A : Type} (h : Heap)
    (before after : Syntax -> A -> A) (U : list Syntax) (fuel : nat)
    (root : Syntax) (p : pointer) (a : A) :
  closed h U -> In root U -> (length U < fuel)%nat ->
  reaches h root (Ptr KPrefix p) ->
  (exists m a', Walk h before after fuel root a = Panicked m a') /\
  (~ In (Ptr KProg None) U ->
     ending (Walk h before after fuel root a) =
       Some "walk: unexpected type *cc.Prefix"%string /\
     exists q t', Walk h logEnter logExit fuel root [] =
       Panicked "walk: unexpected type *cc.Prefix" (t' ++ [Enter (Ptr KPrefix q)])) /\
  (forall n seen s, seenAt seen (Ptr KPrefix p) = false ->
     walk h before after (S n) (Ptr KPrefix p) (seen, s) =
       Panicked "walk: unexpected type *cc.Prefix"
         (<[Ptr KPrefix p := true]> seen, before (Ptr KPrefix p) s)).
Proof.
  intros HU Hroot Hfuel Hreach.
  assert (Hpanics : forall (B : Type) (b c : Syntax -> B -> B) (s : B),
            exists m s', Walk h b c fuel root s = Panicked m s').
  { intros B b c s.
    pose proof (Walk_fuel h b c U fuel root s HU Hroot Hfuel) as Hne.
    pose proof (Walk_reaches_prefix h b c fuel root p s Hreach) as Hnd.
    destruct (Walk h b c fuel root s) as [s'|m s'|]; [discriminate Hnd | eauto | done]. }
  split; [apply Hpanics|]. split.
  - intros Hprog.
    destruct (Hpanics _ logEnter logExit []) as (m & t & Hr).
    assert (Ht : finalState (Walk h logEnter logExit fuel root []) = Some t)
      by (by rewrite Hr).
    destruct (Walk_runs h fuel root t Ht) as [seen' Hs].
    rewrite Hr in Hs. simpl in Hs.
    destruct (run_panic_last _ _ _ _ _ _ Hs m eq_refl)
      as (k & q & t' & -> & Hrule & _).
    assert (Hin : In (Ptr k q) (entered (t' ++ [Enter (Ptr k q)]))).
    { rewrite entered_app. apply List.in_app_iff. right. by left. }
    assert (Hunseen : seenAt seen0 (Ptr k q) = false).
    { by apply (run_entered _ _ _ _ _ _ Hs) in Hin as [_ ?]. }
    assert (HinU : In (Ptr k q) U).
    { destruct (run_reached _ _ _ _ _ _ Hs _ Hin) as (c & [<-|[]] & Hc).
      by apply (reaches_closed h U root). }
    assert (Hm : k = KPrefix /\ m = "walk: unexpected type *cc.Prefix"%string).
    { destruct k; try (destruct q as [b|]); simpl in Hrule;
        try discriminate Hrule;
        try (exfalso; vm_compute in Hunseen; discriminate Hunseen);
        try (by destruct Hprog);
        injection Hrule as <-; by split. }
    destruct Hm as [-> ->]. split.
    + destruct (Walk_ending h before after fuel root a) as [-> _]. by rewrite Hr.
    + exists q, t'. exact Hr.
  - intros n seen s Hseen. rewrite walk_unfold. simpl fst. simpl snd.
    rewrite Hseen. by destruct p.
Qed.

Lemma Walk_unexpected_type_panics_witness :
  (exists m a',
     Walk prefixTextHeap record noop 6 (Ptr KExpr (Some 1%positive)) [] =
       Panicked m a') /\
  (~ In (Ptr KProg None) prefixTextNodes ->
     ending (Walk prefixTextHeap record noop 6 (Ptr KExpr (Some 1%positive)) []) =
       Some "walk: unexpected type *cc.Prefix"%string /\
     exists q t',
       Walk prefixTextHeap logEnter logExit 6 (Ptr KExpr (Some 1%positive)) [] =
         Panicked "walk: unexpected type *cc.Prefix" (t' ++ [Enter (Ptr KPrefix q)])) /\
  (forall n seen s, seenAt seen (Ptr KPrefix (Some 1%positive)) = false ->
     walk prefixTextHeap record noop (S n) (Ptr KPrefix (Some 1%positive)) (seen, s) =
       Panicked "walk: unexpected type *cc.Prefix"
         (<[Ptr KPrefix (Some 1%positive) := true]> seen,
          record (Ptr KPrefix (Some 1%positive)) s)).
Proof.
  apply (Walk_unexpected_type_panics prefixTextHeap record noop prefixTextNodes 6
           (Ptr KExpr (Some 1%positive)) (Some 1%positive) []).
  - apply closedb_sound. vm_compute. reflexivity.
  - simpl. auto.
  - simpl. lia.
  - eapply rtc_l; [|apply rtc_refl]. vm_compute. auto.
Defined.

(** ** What the walker descends into *)

Lemma In_firstn {T : Type} (n : nat) (l : list T) (x : T) :
  In x (firstn n l) -> In x l.
Proof.
  revert l. induction n as [|n IH]; intros l; simpl; [intros []|].
  destruct l as [|a l]; simpl; [intros []|]. intros [?|?]; auto.
Qed.

Lemma exprFields_Left (x : Expr.t) : In (Ptr KExpr (Expr.Left x)) (exprFields x).
Proof. unfold exprFields. simpl. auto. Qed.

Lemma exprFields_Text (x : Expr.t) : In (Expr.Text x) (exprFields x).
Proof. unfold exprFields. simpl. auto. Qed.

Lemma exprFields_Right (x : Expr.t) : In (Ptr KExpr (Expr.Right x)) (exprFields x).
Proof. unfold exprFields. simpl. auto. Qed.

Lemma exprFields_Texts (x : Expr.t) (c : Syntax) :
  In c (Expr.Texts x) -> In c (exprFields x).
Proof.
  intros Hc. unfold exprFields. simpl. do 3 right.
  rewrite !List.in_app_iff. auto.
Qed.

Lemma exprFields_List (x : Expr.t) (p : pointer) :
  In p (Expr.List x) -> In (Ptr KExpr p) (exprFields x).
Proof.
  intros Hp. unfold exprFields. simpl. do 3 right.
  rewrite !List.in_app_iff. right. right. left.
  apply List.in_map_iff. by exists p.
Qed.

Lemma exprFields_Type (x : Expr.t) : In (Ptr KType (Expr.Type_ x)) (exprFields x).
Proof.
  unfold exprFields. simpl. do 3 right.
  rewrite !List.in_app_iff. right. right. right. simpl. auto.
Qed.

(** Every child [GetChildren] returns for an expression is among the
    fields [walk] goes on to from it. *)
Lemma GetChildren_within_fields (x : Expr.t) (cs : list Syntax) :
  Expr_GetChildren x = Ok cs -> forall c, In c cs -> In c (exprFields x).
Proof.
  intros Hcs. apply List.Forall_forall.
  apply (GetChildren_Forall (fun c => In c (exprFields x)) x cs Hcs).
  - unfold textChildren. apply Forall_app. split.
    + destruct (isNilInterface (Expr.Text x)); [apply List.Forall_nil|].
      apply List.Forall_cons; [apply exprFields_Text | apply List.Forall_nil].
    + apply List.Forall_forall. apply exprFields_Texts.
  - unfold uncheckedSlots. cbv zeta.
    repeat match goal with
           | |- context [if ?b then _ else _] => destruct b
           end;
      repeat (apply List.Forall_cons;
              [solve [auto using exprFields_Left, exprFields_Right, exprFields_Type]|]);
      try apply List.Forall_nil.
    apply List.Forall_forall. intros c Hc.
    apply List.in_map_iff in Hc as (q & <- & Hq).
    apply exprFields_List. by apply In_firstn in Hq.
  - intros a Ha. rewrite <- Ha. apply exprFields_Type.
  - intros a Ha. rewrite <- Ha. apply exprFields_Left.
  - intros a Ha. rewrite <- Ha. apply exprFields_Right.
  - intros a Ha. by apply exprFields_List.
Qed.

(** C2, as the code has it. From a node it enters, [walk] goes on, first
    to last, to the nodes its own type switch lists for the kind of the
    node, and to nothing else; [GetChildren] is not consulted. For an
    expression these are [Left], [Text], [Right], [LaunchParams],
    [Texts], [List], [Type], [Init] and [Block], in that order whatever
    the operator; every child [GetChildren] returns is among them. *)
Theorem walk_descends_own_fields {A : Type} (h : Heap)
    (before after : Syntax -> A -> A) (fuel : nat) (k : Kind) (p : pointer)
    (cs : list Syntax) (seen : gmap Syntax bool) (s : A) :
  seenAt seen (Ptr k p) = false ->
  rule h k p = Ok cs ->
  walk h before after (S fuel) (Ptr k p) (seen, s) =
    (walkEach (walk h before after fuel) cs
       (<[Ptr k p := true]> seen, before (Ptr k p) s) ;>
     (fun st => Done (fst st, after (Ptr k p) (snd st)))) /\
  (forall a, k = KExpr -> p = Some a ->
     cs = exprFields (exprs h a) /\
     forall gs c, Expr_GetChildren (exprs h a) = Ok gs -> In c gs -> In c cs).
Proof.
  intros Hseen Hrule. split.
  - rewrite walk_unfold. simpl fst. simpl snd. by rewrite Hseen, Hrule.
  - intros a -> ->. simpl in Hrule. injection Hrule as <-. split; [done|].
    intros gs c Hgs. by apply GetChildren_within_fields.
Qed.

Lemma walk_descends_own_fields_witness :
  walk arrowHeap record noop 4 (Ptr KExpr (Some 1%positive)) (seen0, []) =
    (walkEach (walk arrowHeap record noop 3) (exprFields arrowExpr)
       (<[Ptr KExpr (Some 1%positive) := true]> seen0,
        record (Ptr KExpr (Some 1%positive)) []) ;>
     (fun st => Done (fst st, noop (Ptr KExpr (Some 1%positive)) (snd st)))) /\
  (forall a, KExpr = KExpr -> Some 1%positive = Some a ->
     exprFields arrowExpr = exprFields (exprs arrowHeap a) /\
     forall gs c, Expr_GetChildren (exprs arrowHeap a) = Ok gs -> In c gs ->
       In c (exprFields arrowExpr)).
Proof.
  apply (walk_descends_own_fields arrowHeap record noop 3 KExpr (Some 1%positive)
           (exprFields arrowExpr) seen0 []).
  - vm_compute. reflexivity.
  - reflexivity.
Defined.

(** C2 fails as stated: for [p->name], [GetChildren] lists the member
    name before the left operand, and the walker enters the left operand
    (and what is below it) before the member name. *)
Lemma walk_order_differs_from_GetChildren :
  Expr_GetChildren (exprs arrowHeap 1%positive) =
    Ok [Ptr KSymbolLiteral (Some 1%positive); Ptr KExpr (Some 2%positive)] /\
  Preorder arrowHeap 4 (Ptr KExpr (Some 1%positive)) record [] =
    Done [Ptr KExpr (Some 1%positive); Ptr KExpr (Some 2%positive);
          Ptr KSymbolLiteral (Some 2%positive); Ptr KSymbolLiteral (Some 1%positive)].
Proof. split; reflexivity. Qed.

(** ** The codec of the cast node *)

Section CodecFacts.

Variables SyntaxInfo AssignOp Type_ Expr : Type.
Variable marshalSyntaxInfo : SyntaxInfo -> ast.error + list (string * ast.json).
Variable marshalAssignOp : AssignOp -> ast.error + ast.json.
Variable marshalType : option Type_ -> ast.error + ast.json.
Variable marshalExpr : option Expr -> ast.error + ast.json.

Let Node : Type := ast.CastExpr SyntaxInfo AssignOp Type_ Expr.
Let UnmarshalJSON := ast.UnmarshalJSON SyntaxInfo AssignOp Type_ Expr.
Let MarshalJSON :=
  ast.MarshalJSON SyntaxInfo AssignOp Type_ Expr
    marshalSyntaxInfo marshalAssignOp marshalType marshalExpr.

(** On a JSON text the method calls [json.Unmarshal], which calls the
    method, and so on: no depth of calls is enough. *)
Lemma UnmarshalJSON_json_overflows (fuel : nat) (v : ast.json) (x : Node) :
  UnmarshalJSON fuel (Some v) x = OutOfFuel.
Proof. induction fuel as [|fuel IH]; simpl; [done | exact IH]. Qed.

(** On bytes that are not a JSON text the first check of [json.Unmarshal]
    returns its error. *)
Lemma UnmarshalJSON_not_json (fuel : nat) (x : Node) :
  UnmarshalJSON (S fuel) None x = Done (Some ast.SyntaxError).
Proof. reflexivity. Qed.

(** The method never returns success. *)
Lemma UnmarshalJSON_never_succeeds (fuel : nat) (data : ast.Data) (x : Node) :
  UnmarshalJSON fuel data x <> Done None.
Proof.
  destruct data as [v|].
  - by rewrite UnmarshalJSON_json_overflows.
  - destruct fuel; simpl; done.
Qed.

(** What [MarshalJSON] returns on success is a JSON object with the
    discriminant of the cast node, and the node carries it too. *)
Lemma MarshalJSON_object (x y : Node) (data : ast.Data) :
  MarshalJSON (Some x) = Ok (y, inr data) ->
  ast.Kind _ _ _ _ y = "CastExpr"%string /\
  exists fields, data = Some (ast.JObject fields) /\
                 In ("kind"%string, ast.JString "CastExpr") fields.
Proof.
  unfold MarshalJSON, ast.MarshalJSON, ast.json_Marshal. simpl.
  destruct (marshalSyntaxInfo _) as [e|info]; [intros [= <- ?]; done|].
  destruct (marshalAssignOp _) as [e|op]; [intros [= <- ?]; done|].
  destruct (marshalType _) as [e|ty]; [intros [= <- ?]; done|].
  destruct (marshalExpr _) as [e|ex]; [intros [= <- ?]; done|].
  intros [= <- <-]. split; [done|]. eexists. split; [done|].
  apply List.in_app_iff. right. simpl. auto.
Qed.

(** C7. Decoding what [MarshalJSON] wrote gives no node back: at every
    depth of calls the decoder is still calling itself. *)
Theorem UnmarshalJSON_of_MarshalJSON_overflows (x y target : Node)
    (data : ast.Data) (fuel : nat) :
  MarshalJSON (Some x) = Ok (y, inr data) ->
  UnmarshalJSON fuel data target = OutOfFuel.
Proof.
  intros Hm. destruct (MarshalJSON_object x y data Hm) as (_ & fields & -> & _).
  apply UnmarshalJSON_json_overflows.
Qed.

(** C8. Decoding a record with an unknown discriminant returns no error:
    at every depth of calls the decoder is still calling itself. *)
Theorem UnmarshalJSON_bogus_overflows (x : Node) (fuel : nat) :
  UnmarshalJSON fuel ast.bogusRecord x = OutOfFuel.
Proof. apply UnmarshalJSON_json_overflows. Qed.

End CodecFacts.

Lemma UnmarshalJSON_of_MarshalJSON_overflows_witness :
  ast.UnmarshalJSON unit Z string string 1000
    (Some (ast.JObject
       [("kind", ast.JString "CastExpr"); ("id", ast.JNumber 7);
        ("op", ast.JNumber 1);
        ("type", ast.JObject [("kind", ast.JString "Type"); ("name", ast.JString "float")]);
        ("expr", ast.JObject [("kind", ast.JString "Name"); ("name", ast.JString "x")])]%string))
    ast.exampleCast = OutOfFuel.
Proof.
  apply (UnmarshalJSON_of_MarshalJSON_overflows unit Z string string
           ast.exampleInfo ast.exampleOp (ast.exampleNamed "Type")
           (ast.exampleNamed "Name") ast.exampleCast
           (ast.mkCastExpr unit Z string string tt "CastExpr" 7 1
              (Some "float"%string) (Some "x"%string))).
  reflexivity.
Defined.

(** * Further properties *)

(** ** Child enumeration: list loops, default case, bounds *)

(** The loop over an operand list appends its non-nil elements, in
    order. *)
Lemma appendNonNil_spec (k : Kind) (l : list pointer) (lst : list Syntax) :
  appendNonNil k l lst = lst ++ map (asSyntax k) (nonNil l).
Proof.
  revert lst. induction l as [|[a|] l IH]; intros lst; simpl.
  - by rewrite app_nil_r.
  - rewrite IH. by rewrite <- app_assoc.
  - apply IH.
Qed.

Lemma appendList_spec (k : Kind) (l : list pointer) (lst : list Syntax) :
  (if (length l =? 0)%nat then lst else appendNonNil k l lst)
  = lst ++ map (asSyntax k) (nonNil l).
Proof.
  destruct l as [|p l]; [simpl; by rewrite app_nil_r|].
  change (length (p :: l) =? 0)%nat with false. apply appendNonNil_spec.
Qed.

(** For [Call] and [Comma] the children are the text payload, the callee
    for [Call], and the non-nil elements of the operand list in list
    order; [Right], [Type] and the launch parameters are left out. *)
Theorem GetChildren_Call_Comma (x : Expr.t) :
  Expr.Op x = Op.Call \/ Expr.Op x = Op.Comma ->
  Expr_GetChildren x =
    Ok (textChildren x ++
        (if Expr.Op x =? Op.Call then [asSyntax KExpr (Expr.Left x)] else []) ++
        map (asSyntax KExpr) (nonNil (Expr.List x))).
Proof.
  intros Hop. unfold Expr_GetChildren. cbv zeta.
  pose proof (textChildren_prefix x) as Hp. cbv zeta in Hp. rewrite Hp. clear Hp.
  destruct Hop as [-> | ->].
  - change (Op.Call =? Op.Arrow) with false. change (Op.Call =? Op.Call) with true.
    cbv iota. rewrite appendList_spec. by rewrite <- app_assoc.
  - change (Op.Comma =? Op.Arrow) with false. change (Op.Comma =? Op.Call) with false.
    change (Op.Comma =? Op.Comma) with true. cbv iota.
    by rewrite appendList_spec.
Qed.

Lemma GetChildren_Call_Comma_witness :
  Expr_GetChildren callExpr =
    Ok (textChildren callExpr ++
        (if Expr.Op callExpr =? Op.Call then [asSyntax KExpr (Expr.Left callExpr)] else []) ++
        map (asSyntax KExpr) (nonNil (Expr.List callExpr))).
Proof. apply (GetChildren_Call_Comma callExpr). left. reflexivity. Defined.

(** For every operator without a case of its own, values outside the
    enumeration and [CUDACall] included, the children are the text
    payload, then [Type], [Left] and [Right] when set, then the non-nil
    elements of the operand list. *)
Theorem GetChildren_default (x : Expr.t) :
  ~ In (Expr.Op x) specialOps ->
  Expr_GetChildren x =
    Ok (textChildren x ++ whenSet KType (Expr.Type_ x) ++
        whenSet KExpr (Expr.Left x) ++ whenSet KExpr (Expr.Right x) ++
        map (asSyntax KExpr) (nonNil (Expr.List x))).
Proof.
  intros Hop. unfold Expr_GetChildren. cbv zeta.
  pose proof (textChildren_prefix x) as Hp. cbv zeta in Hp. rewrite Hp. clear Hp.
  repeat (case_op_goal;
          [exfalso; apply Hop;
           match goal with Heq : Expr.Op _ = _ |- _ => rewrite Heq end; simpl;
           repeat first [left; reflexivity | right]|]).
  rewrite appendList_spec.
  destruct (Expr.Type_ x), (Expr.Left x), (Expr.Right x); simpl;
    by rewrite <- ?app_assoc.
Qed.

Lemma GetChildren_default_witness :
  Expr_GetChildren minusExpr =
    Ok (textChildren minusExpr ++ whenSet KType (Expr.Type_ minusExpr) ++
        whenSet KExpr (Expr.Left minusExpr) ++ whenSet KExpr (Expr.Right minusExpr) ++
        map (asSyntax KExpr) (nonNil (Expr.List minusExpr))).
Proof.
  apply (GetChildren_default minusExpr).
  simpl. intros H. repeat (destruct H as [H|H]; [discriminate H|]). exact H.
Defined.

(** [GetChildren] panics for exactly one shape of node: a [Cond] whose
    operand list has fewer than three elements. *)
Theorem GetChildren_panics_iff (x : Expr.t) :
  (exists m, Expr_GetChildren x = Panic m) <->
  Expr.Op x = Op.Cond /\ (length (Expr.List x) < 3)%nat.
Proof.
  split.
  - intros [m H]. revert H. unfold Expr_GetChildren. cbv zeta.
    pose proof (textChildren_prefix x) as Hp. cbv zeta in Hp. rewrite Hp. clear Hp.
    repeat (case_op_goal; [try solve [intros ?; discriminate]|]);
      try solve [intros ?; discriminate].
    destruct (Expr.List x) as [|c [|t [|e rest]]]; simpl; intros H;
      try discriminate; split; auto; lia.
  - intros [E Hlen]. unfold Expr_GetChildren. cbv zeta. rewrite E.
    destruct (Expr.List x) as [|c [|t [|e rest]]]; simpl in *; eauto; lia.
Qed.

(** Every child of an expression is part of the text payload, the type
    operand, the left or right operand, or an element of the operand
    list: the initializer, the launch parameters, the block and the
    derived references never count as children. *)
Theorem GetChildren_only_operands (x : Expr.t) (cs : list Syntax) (c : Syntax) :
  Expr_GetChildren x = Ok cs -> In c cs ->
  In c (textChildren x) \/ c = asSyntax KType (Expr.Type_ x) \/
  c = asSyntax KExpr (Expr.Left x) \/ c = asSyntax KExpr (Expr.Right x) \/
  exists p, In p (Expr.List x) /\ c = asSyntax KExpr p.
Proof.
  intros Hcs. revert c. apply List.Forall_forall.
  apply (GetChildren_Forall _ x cs Hcs).
  - apply List.Forall_forall. auto.
  - unfold uncheckedSlots. cbv zeta.
    repeat match goal with
           | |- context [if ?b then _ else _] => destruct b
           end;
      repeat (apply List.Forall_cons; [solve [auto 6]|]);
      try apply List.Forall_nil.
    apply List.Forall_forall. intros c Hc.
    apply List.in_map_iff in Hc as (q & <- & Hq).
    do 4 right. exists q. split; [by apply In_firstn in Hq | done].
  - intros a <-. auto.
  - intros a <-. auto.
  - intros a <-. auto 6.
  - intros a Ha. do 4 right. by exists (Some a).
Qed.

Lemma GetChildren_only_operands_witness :
  In (Ptr KExpr (Some 2%positive)) (textChildren arrowExpr) \/
  Ptr KExpr (Some 2%positive) = asSyntax KType (Expr.Type_ arrowExpr) \/
  Ptr KExpr (Some 2%positive) = asSyntax KExpr (Expr.Left arrowExpr) \/
  Ptr KExpr (Some 2%positive) = asSyntax KExpr (Expr.Right arrowExpr) \/
  exists p, In p (Expr.List arrowExpr) /\ Ptr KExpr (Some 2%positive) = asSyntax KExpr p.
Proof.
  apply (GetChildren_only_operands arrowExpr
           [Ptr KSymbolLiteral (Some 1%positive); Ptr KExpr (Some 2%positive)]).
  - reflexivity.
  - simpl. auto.
Defined.

(** ** Child enumeration of initializers *)

Lemma fold_left_append {T : Type} (f : T -> Syntax) (l : list T) (acc : list Syntax) :
  fold_left (fun lst elem => lst ++ [f elem]) l acc = acc ++ map f l.
Proof.
  revert acc. induction l as [|a l IH]; intros acc; simpl.
  - by rewrite app_nil_r.
  - rewrite IH. by rewrite <- app_assoc.
Qed.

(** The children of an initializer are all its prefixes, nil ones
    included, then its expression when set, then all its braced
    initializers, nil ones included. *)
Theorem Init_GetChildren_spec (x : Init.t) :
  Init_GetChildren x =
    map (asSyntax KPrefix) (Init.Prefix x) ++ whenSet KExpr (Init.Expr x) ++
    map (asSyntax KInit) (Init.Braced x) /\
  (length (Init.Prefix x) + length (Init.Braced x) <= length (Init_GetChildren x)
   <= length (Init.Prefix x) + length (Init.Braced x) + 1)%nat.
Proof.
  assert (H : Init_GetChildren x =
    map (asSyntax KPrefix) (Init.Prefix x) ++ whenSet KExpr (Init.Expr x) ++
    map (asSyntax KInit) (Init.Braced x)).
  { unfold Init_GetChildren. cbv zeta. rewrite !fold_left_append. simpl.
    destruct (Init.Expr x); simpl; by rewrite <- ?app_assoc, ?app_nil_r. }
  split; [exact H|]. rewrite H.
  rewrite !length_app, !length_map. destruct (Init.Expr x); simpl; lia.
Qed.

(** ** Operator names: where the method panics, and what a name tells *)

(** The method panics at exactly one value, the length of the table. *)
Theorem ExprOp_String_panics_iff (op : ExprOp) :
  (exists m, ExprOp_String op = Panic m) <-> op = 62.
Proof.
  split.
  - intros [m H].
    destruct (Z.lt_trichotomy op 62) as [Hlt|[Heq|Hgt]]; [|done|].
    + destruct (Z.lt_ge_cases op 0) as [Hneg|Hpos].
      * rewrite ExprOp_String_fallback in H by lia. discriminate.
      * rewrite ExprOp_String_in_table in H by lia. discriminate.
    + rewrite ExprOp_String_fallback in H by lia. discriminate.
  - intros ->. eexists. reflexivity.
Qed.

Lemma string_append_nil (b : string) : (EmptyString ++ b)%string = b.
Proof. reflexivity. Qed.

Lemma string_append_cons (x : ascii) (a b : string) :
  (String x a ++ b)%string = String x (a ++ b)%string.
Proof. reflexivity. Qed.

Lemma string_length_append (a b : string) :
  String.length (a ++ b) = (String.length a + String.length b)%nat.
Proof.
  induction a as [|c a IH].
  - by rewrite string_append_nil.
  - rewrite string_append_cons. simpl. by rewrite IH.
Qed.

Lemma string_append_cancel_l (a b c : string) :
  (a ++ b)%string = (a ++ c)%string -> b = c.
Proof.
  induction a as [|x a IH]; rewrite ?string_append_nil, ?string_append_cons; [done|].
  intros [= H]. by apply IH.
Qed.

Lemma string_append_cancel_r (a b c : string) :
  (a ++ c)%string = (b ++ c)%string -> a = b.
Proof.
  revert b. induction a as [|x a IH]; intros [|y b] H;
    rewrite ?string_append_nil, ?string_append_cons in H.
  - done.
  - apply (f_equal String.length) in H. simpl in H.
    rewrite string_length_append in H. lia.
  - apply (f_equal String.length) in H. simpl in H.
    rewrite string_length_append in H. lia.
  - injection H as -> H. f_equal. by apply IH.
Qed.

(** Printing an integer in decimal loses nothing. *)
Lemma formatInt_inj (a b : Z) : formatInt a = formatInt b -> a = b.
Proof.
  unfold formatInt. intros H. apply DecimalZ.to_int_inj.
  assert (Hn : forall z, Z.to_int z <> Decimal.Pos Decimal.Nil /\
                         Z.to_int z <> Decimal.Neg Decimal.Nil).
  { intros [|p|p]; simpl; split; try discriminate;
      intros [= Hp]; by apply DecimalPos.Unsigned.to_uint_nonnil in Hp. }
  destruct (Hn a) as [Ha1 Ha2], (Hn b) as [Hb1 Hb2].
  apply (f_equal NilZero.int_of_string) in H.
  rewrite !NilZero.isi in H by done. by injection H.
Qed.

Lemma names_apart :
  forallb (fun i => forallb (namesApart i) (seq 0 62)) (seq 0 62) = true.
Proof. vm_compute. reflexivity. Qed.

Lemma names_not_fallback :
  forallb (fun s => negb (String.prefix "ExprOp(" s)) exprOpString = true.
Proof. vm_compute. reflexivity. Qed.

Lemma prefix_fallback (r : string) :
  String.prefix "ExprOp(" ("ExprOp(" ++ r) = true.
Proof.
  rewrite !string_append_cons, string_append_nil. simpl.
  by destruct r.
Qed.

(** A name identifies its operator: when the method returns the same
    non-empty text for two values, the values are equal. This covers the
    names of the table and the fallback texts together. *)
Theorem ExprOp_String_injective (op1 op2 : ExprOp) (s : string) :
  ExprOp_String op1 = Ok s -> ExprOp_String op2 = Ok s -> s <> EmptyString ->
  op1 = op2.
Proof.
  assert (Hcases : forall op t, ExprOp_String op = Ok t ->
            (0 <= op < 62 /\ t = nth (Z.to_nat op) exprOpString EmptyString) \/
            ((op < 0 \/ 62 < op) /\ t = ("ExprOp(" ++ formatInt op ++ ")")%string)).
  { intros op t H.
    destruct (Z.lt_trichotomy op 62) as [Hlt|[->|Hgt]].
    - destruct (Z.lt_ge_cases op 0) as [Hneg|Hpos].
      + rewrite ExprOp_String_fallback in H by lia. injection H as <-. right. auto.
      + rewrite ExprOp_String_in_table in H by lia. injection H as <-. left. auto.
    - discriminate H.
    - rewrite ExprOp_String_fallback in H by lia. injection H as <-. right. auto. }
  assert (Htable : forall op t, 0 <= op < 62 ->
            t = nth (Z.to_nat op) exprOpString EmptyString ->
            String.prefix "ExprOp(" t = false).
  { intros op t Hop ->. pose proof names_not_fallback as Hnf.
    rewrite forallb_forall in Hnf.
    apply negb_true_iff, Hnf, nth_In. rewrite exprOpString_length. lia. }
  intros H1 H2 Hs.
  destruct (Hcases op1 s H1) as [[Hr1 E1]|[Hr1 E1]],
           (Hcases op2 s H2) as [[Hr2 E2]|[Hr2 E2]].
  - pose proof names_apart as Hna. rewrite forallb_forall in Hna.
    assert (Hi : In (Z.to_nat op1) (seq 0 62)) by (apply in_seq; lia).
    assert (Hj : In (Z.to_nat op2) (seq 0 62)) by (apply in_seq; lia).
    specialize (Hna _ Hi). rewrite forallb_forall in Hna. specialize (Hna _ Hj).
    unfold namesApart in Hna. cbv zeta in Hna. rewrite <- E1, <- E2 in Hna.
    destruct (string_dec s EmptyString); [done|].
    destruct (string_dec s s); [|done].
    rewrite !orb_false_r in Hna. apply Nat.eqb_eq in Hna. lia.
  - pose proof (Htable op1 s Hr1 E1) as Hp.
    rewrite E2, prefix_fallback in Hp. discriminate Hp.
  - pose proof (Htable op2 s Hr2 E2) as Hp.
    rewrite E1, prefix_fallback in Hp. discriminate Hp.
  - rewrite E1 in E2. apply string_append_cancel_l in E2.
    apply string_append_cancel_r in E2. by apply formatInt_inj.
Qed.

Lemma ExprOp_String_injective_witness : Op.Cond = 13.
Proof.
  apply (ExprOp_String_injective Op.Cond 13 "Cond"); [reflexivity | reflexivity | discriminate].
Defined.

(** ** The walker: pairing of entries and exits *)





Section Pairing.

Variable h : Heap.

Let State : Type := gmap Syntax bool * list Event.



End Pairing.



(** ** The walker: where the root stands *)

(** A node that is not seen is entered first, and left last when its
    visit returns. *)
Lemma walk_root_events (h : Heap) (fuel : nat) (k : Kind) (p : pointer)
    (seen : gmap Syntax bool) (t : list Event) (st' : gmap Syntax bool * list Event) :
  seenAt seen (Ptr k p) = false ->
  finalState (walk h logEnter logExit fuel (Ptr k p) (seen, t)) = Some st' ->
  exists mid, snd st' = t ++ Enter (Ptr k p) :: mid ++
    match ending (walk h logEnter logExit fuel (Ptr k p) (seen, t)) with
    | Some _ => []
    | None => [Exit (Ptr k p)]
    end.
Proof.
  intros Hseen Hr. destruct fuel as [|fuel]; [done|].
  rewrite walk_unfold in *. simpl fst in *. simpl snd in *. rewrite Hseen in *.
  cbv zeta in *.
  destruct (rule h k p) as [cs|m] eqn:Hrule.
  - pose proof (walkEach_runs h _ (walk_runs h fuel) cs (<[Ptr k p:=true]> seen)
                  (logEnter (Ptr k p) t)) as Hcs.
    destruct (walkEach _ cs _) as [[s1 t1]|m [s1 t1]|]; simpl in *; [| |done];
      injection Hr as <-; destruct (Hcs _ eq_refl) as (new & Ht1 & _);
      simpl in *; subst t1; exists new; unfold logExit, logEnter;
      by rewrite ?app_nil_r, <- ?app_assoc.
  - simpl in *. injection Hr as <-. by exists [].
Qed.

Lemma seen0_nil : seenAt seen0 nilSyntax = true.
Proof. unfold seen0. apply seenAt_insert_same. Qed.

(** [Preorder] calls [f] on the root before any other node, also when
    the run panics later; [Postorder], when it returns, calls [f] on the
    root after every other node. The root is any node that is not an
    absent slot of the initial map. *)
Theorem Preorder_root_first_Postorder_root_last (h : Heap) (fuel : nat)
    (root : Syntax) :
  seenAt seen0 root = false ->
  (forall calls, finalState (Preorder h fuel root record []) = Some calls ->
     exists rest, calls = root :: rest) /\
  (forall calls, Postorder h fuel root record [] = Done calls ->
     exists rest, calls = rest ++ [root]).
Proof.
  intros Hroot.
  destruct root as [|k p]; [by rewrite seen0_nil in Hroot|].
  rewrite Preorder_calls, Postorder_calls. unfold Walk.
  pose proof (walk_root_events h fuel k p seen0 [] ) as Hw.
  destruct (walk h logEnter logExit fuel (Ptr k p) (seen0, [])) as [[s1 t1]|m [s1 t1]|];
    simpl in *.
  - destruct (Hw _ Hroot eq_refl) as (mid & Ht). simpl in Ht. subst t1. split.
    + intros calls [= <-]. rewrite callAll_record. simpl. eauto.
    + intros calls [= <-]. rewrite callAll_record. simpl.
      rewrite exited_app. simpl. eauto.
  - destruct (Hw _ Hroot eq_refl) as (mid & Ht). simpl in Ht. subst t1. split.
    + intros calls [= <-]. rewrite callAll_record. simpl. eauto.
    + intros calls H. discriminate H.
  - split; intros calls H; discriminate H.
Qed.

Lemma Preorder_root_first_Postorder_root_last_witness :
  (forall calls,
     finalState (Preorder cycleHeap 7 (Ptr KExpr (Some 1%positive)) record [])
       = Some calls ->
     exists rest, calls = Ptr KExpr (Some 1%positive) :: rest) /\
  (forall calls,
     Postorder cycleHeap 7 (Ptr KExpr (Some 1%positive)) record [] = Done calls ->
     exists rest, calls = rest ++ [Ptr KExpr (Some 1%positive)]).
Proof.
  apply (Preorder_root_first_Postorder_root_last cycleHeap 7 (Ptr KExpr (Some 1%positive))).
  vm_compute. reflexivity.
Defined.

(** ** The walker: [Preorder] and [Postorder] see the same nodes *)

(** When [Preorder] returns, [Postorder] returns too, and the two have
    called [f] on the same nodes, each once, in two orders. *)
Theorem Preorder_Postorder_same_nodes (h : Heap) (fuel : nat) (root : Syntax)
    (pre : list Syntax) :
  Preorder h fuel root record [] = Done pre ->
  exists post, Postorder h fuel root record [] = Done post /\ Permutation pre post.
Proof.
  rewrite Preorder_calls, Postorder_calls. intros Hpre.
  destruct (Walk h logEnter logExit fuel root []) as [t|m t|] eqn:Hr;
    simpl in *; try discriminate.
  injection Hpre as <-. rewrite !callAll_record. simpl.
  exists (exited t). split; [done|].
  assert (Ht : finalState (Walk h logEnter logExit fuel root []) = Some t)
    by (by rewrite Hr).
  destruct (Walk_runs h fuel root t Ht) as [seen' Hs].
  rewrite Hr in Hs. simpl in Hs.
  apply Permutation.NoDup_Permutation.
  - apply (run_entered_once _ _ _ _ _ _ Hs).
  - apply (run_exited_once _ _ _ _ _ _ Hs).
  - intros y. split.
    + apply (run_done_exited _ _ _ _ _ _ Hs eq_refl).
    + apply (run_exited _ _ _ _ _ _ Hs).
Qed.

Lemma Preorder_Postorder_same_nodes_witness :
  exists post,
    Postorder cycleHeap 7 (Ptr KExpr (Some 1%positive)) record [] = Done post /\
    Permutation [Ptr KExpr (Some 1%positive); Ptr KExpr (Some 2%positive);
                 Ptr KSymbolLiteral (Some 2%positive)] post.
Proof.
  apply (Preorder_Postorder_same_nodes cycleHeap 7 (Ptr KExpr (Some 1%positive))).
  vm_compute. reflexivity.
Defined.

(** ** The walker: absent slots *)

Lemma seen0_preRegistered (y : Syntax) :
  seenAt seen0 y = true <-> In y preRegistered.
Proof.
  unfold seen0, preRegistered. rewrite !seenAt_insert.
  unfold seenAt. rewrite lookup_empty. simpl. split.
  - intros H. repeat (destruct H as [H|H]; [rewrite <- H; auto 20|]). discriminate.
  - intros H. repeat (destruct H as [H|H]; [rewrite <- H; auto 20|]). destruct H.
Qed.

(** From the nil interface, and from a nil pointer of one of the
    thirteen types of the initial map, [Walk] returns at once and calls
    nothing. *)
Theorem Walk_absent_root {A : Type} (h : Heap) (before after : Syntax -> A -> A)
    (fuel : nat) (root : Syntax) (a : A) :
  In root preRegistered ->
  Walk h before after (S fuel) root a = Done a.
Proof.
  intros Hroot. apply seen0_preRegistered in Hroot.
  unfold Walk. destruct root as [|k p]; [done|].
  rewrite walk_unfold. simpl fst. by rewrite Hroot.
Qed.

Lemma Walk_absent_root_witness :
  Walk arrowHeap logEnter logExit 1 (Ptr KExpr None) [] = Done [].
Proof.
  apply (Walk_absent_root arrowHeap logEnter logExit 0 (Ptr KExpr None) []).
  simpl. auto 20.
Defined.

(** The callbacks are never called on the nil interface nor on a nil
    pointer of the initial map, wherever such a value sits in the
    graph. *)
Theorem Walk_never_calls_on_absent (h : Heap) (fuel : nat) (root : Syntax)
    (t : list Event) (y : Syntax) :
  finalState (Walk h logEnter logExit fuel root []) = Some t ->
  In y (entered t) \/ In y (exited t) ->
  ~ In y preRegistered.
Proof.
  intros Ht Hy Hreg. apply seen0_preRegistered in Hreg.
  destruct (Walk_runs h fuel root t Ht) as [seen' Hs].
  assert (Hin : In y (entered t)).
  { destruct Hy as [?|Hy]; [done|]. by apply (run_exited _ _ _ _ _ _ Hs). }
  apply (run_entered _ _ _ _ _ _ Hs) in Hin as [_ Hin]. by rewrite Hreg in Hin.
Qed.

Lemma Walk_never_calls_on_absent_witness :
  ~ In (Ptr KExpr (Some 2%positive)) preRegistered.
Proof.
  apply (Walk_never_calls_on_absent cycleHeap 7 (Ptr KExpr (Some 1%positive))
           [Enter (Ptr KExpr (Some 1%positive)); Enter (Ptr KExpr (Some 2%positive));
            Enter (Ptr KSymbolLiteral (Some 2%positive));
            Exit (Ptr KSymbolLiteral (Some 2%positive));
            Exit (Ptr KExpr (Some 2%positive)); Exit (Ptr KExpr (Some 1%positive))]).
  - vm_compute. reflexivity.
  - simpl. auto.
Defined.

(** Three nil pointers are not in the initial map, and [Walk] treats
    them as nodes: on a nil [*BooleanLiteral] it calls [before] and
    [after]; on a nil [*Prog] it calls [before] and then panics on the
    nil dereference; on a nil [*Prefix] it calls [before] and then
    panics in the default case. *)
Theorem Walk_nil_pointers_not_registered (h : Heap) (fuel : nat) :
  Walk h logEnter logExit (S fuel) (Ptr KBooleanLiteral None) [] =
    Done [Enter (Ptr KBooleanLiteral None); Exit (Ptr KBooleanLiteral None)] /\
  Walk h logEnter logExit (S fuel) (Ptr KProg None) [] =
    Panicked nilDeref [Enter (Ptr KProg None)] /\
  Walk h logEnter logExit (S fuel) (Ptr KPrefix None) [] =
    Panicked "walk: unexpected type *cc.Prefix" [Enter (Ptr KPrefix None)].
Proof.
  assert (Hb : seenAt seen0 (Ptr KBooleanLiteral None) = false).
  { destruct (seenAt seen0 (Ptr KBooleanLiteral None)) eqn:E; [|done].
    apply seen0_preRegistered in E. simpl in E.
    repeat (destruct E as [E|E]; [discriminate E|]). destruct E. }
  assert (Hp : seenAt seen0 (Ptr KProg None) = false).
  { destruct (seenAt seen0 (Ptr KProg None)) eqn:E; [|done].
    apply seen0_preRegistered in E. simpl in E.
    repeat (destruct E as [E|E]; [discriminate E|]). destruct E. }
  unfold Walk. rewrite !walk_unfold. simpl fst.
  rewrite Hb, Hp, seen0_prefix. by repeat split.
Qed.

(** ** The walker: fields it does not read *)

Lemma rule_agree (h h' : Heap) :
  agreeOnWalked h h' -> forall k p, rule h k p = rule h' k p.
Proof.
  intros (He & Hi & Hp & Hd & Ht & Hs & Hl) k p.
  destruct k, p as [a|]; simpl; try reflexivity.
  - by rewrite Hp.
  - by rewrite Hd.
  - unfold initFields. destruct (Hi a) as (-> & ->). done.
  - by rewrite Ht.
  - unfold exprFields.
    destruct (He a) as (-> & -> & -> & -> & -> & -> & -> & -> & ->). done.
  - by rewrite Hs.
  - by rewrite Hl.
Qed.

Lemma walkEach_ext {A : Type}
    (w w' : Syntax -> gmap Syntax bool * A -> outcome (gmap Syntax bool * A)) :
  (forall y st, w y st = w' y st) ->
  forall l st, walkEach w l st = walkEach w' l st.
Proof.
  intros Hw. induction l as [|y l IH]; intros st; simpl; [done|].
  rewrite Hw. destruct (w' y st); simpl; auto.
Qed.

Lemma walk_agree {A : Type} (h h' : Heap) (before after : Syntax -> A -> A) :
  agreeOnWalked h h' ->
  forall fuel x st, walk h before after fuel x st = walk h' before after fuel x st.
Proof.
  intros Hagree. induction fuel as [|fuel IH]; intros x st; [done|].
  destruct x as [|k p]; [done|].
  rewrite !walk_unfold. rewrite (rule_agree h h' Hagree).
  destruct (seenAt (fst st) (Ptr k p)); [done|]. cbv zeta.
  destruct (rule h' k p) as [cs|m]; [|done].
  by rewrite (walkEach_ext _ _ IH).
Qed.

(** [Walk] does not follow the derived references. Two graphs that agree
    on the fields [walk] reads give the same run, whatever [SourceExpr],
    [XDecl] and [XType] of the expressions, the prefixes and [XType] of
    the initializers, and the identifiers hold: a back reference from an
    expression to its declaration or to itself is not a path of the
    traversal. *)
Theorem Walk_ignores_unread_fields {A : Type} (h h' : Heap)
    (before after : Syntax -> A -> A) (fuel : nat) (root : Syntax) (a : A) :
  agreeOnWalked h h' ->
  Walk h before after fuel root a = Walk h' before after fuel root a.
Proof. intros Hagree. unfold Walk. by rewrite (walk_agree h h' before after Hagree). Qed.

Lemma Walk_ignores_unread_fields_witness :
  Walk arrowHeap logEnter logExit 5 (Ptr KExpr (Some 1%positive)) [] =
  Walk resolvedArrowHeap logEnter logExit 5 (Ptr KExpr (Some 1%positive)) [].
Proof.
  apply (Walk_ignores_unread_fields arrowHeap resolvedArrowHeap).
  unfold agreeOnWalked, arrowHeap, resolvedArrowHeap, tableHeap. simpl.
  split; [|by repeat split].
  intros a. destruct (Pos.eqb 1 a); [by repeat split|].
  destruct (Pos.eqb 2 a); by repeat split.
Defined.

(** ** The walker: parents before children, children left before parents *)

Lemma precedes_app_l (y z : Syntax) (l l' : list Syntax) :
  precedes y z l -> precedes y z (l ++ l').
Proof.
  intros (l1 & l2 & -> & Hy). exists l1, (l2 ++ l'). split; [|done].
  by rewrite <- app_assoc.
Qed.

Lemma precedes_app_r (y z : Syntax) (l l' : list Syntax) :
  precedes y z l -> precedes y z (l' ++ l).
Proof.
  intros (l1 & l2 & -> & Hy). exists (l' ++ l1), l2. split.
  - by rewrite <- app_assoc.
  - apply List.in_app_iff. auto.
Qed.

Lemma precedes_head (x z : Syntax) (l : list Syntax) :
  In z l -> precedes x z (x :: l).
Proof.
  intros Hz. apply List.in_split in Hz as (l1 & l2 & ->).
  exists (x :: l1), l2. split; [done | by left].
Qed.

Lemma precedes_last (x z : Syntax) (l : list Syntax) :
  In z l -> precedes z x (l ++ [x]).
Proof. intros Hz. by exists l, []. Qed.

(** A property of runs that holds of the five ways a run is built holds
    of every logged run of [walk]. *)
Section RunInduction.

Variable h : Heap.
Variable Q : list Syntax -> gmap Syntax bool -> gmap Syntax bool ->
             list Event -> option string -> Prop.

Hypothesis Q_skip : forall roots seen,
  (forall c, In c roots -> c = nilSyntax \/ seenAt seen c = true) ->
  Q roots seen seen [] None.
Hypothesis Q_seq : forall y l s0 s1 s2 n1 n2 e,
  Q [y] s0 s1 n1 None -> Q l s1 s2 n2 e -> Q (y :: l) s0 s2 (n1 ++ n2) e.
Hypothesis Q_seq_panic : forall y l s0 s1 n1 m,
  Q [y] s0 s1 n1 (Some m) -> Q (y :: l) s0 s1 n1 (Some m).
Hypothesis Q_node_panic : forall k p seen m,
  seenAt seen (Ptr k p) = false -> rule h k p = Panic m ->
  Q [Ptr k p] seen (<[Ptr k p := true]> seen) [Enter (Ptr k p)] (Some m).
Hypothesis Q_node : forall k p cs seen seen' new e,
  seenAt seen (Ptr k p) = false -> rule h k p = Ok cs ->
  Q cs (<[Ptr k p := true]> seen) seen' new e ->
  Q [Ptr k p] seen seen'
    (Enter (Ptr k p) :: new ++ match e with Some _ => [] | None => [Exit (Ptr k p)] end) e.

Let State : Type := gmap Syntax bool * list Event.

Lemma walkEach_run_ind (w : Syntax -> State -> outcome State) :
  (forall x seen t st', finalState (w x (seen, t)) = Some st' ->
     exists new, snd st' = t ++ new /\
       Q [x] seen (fst st') new (ending (w x (seen, t)))) ->
  forall l seen t st', finalState (walkEach w l (seen, t)) = Some st' ->
    exists new, snd st' = t ++ new /\
      Q l seen (fst st') new (ending (walkEach w l (seen, t))).
Proof.
  intros Hw. induction l as [|y l IH]; intros seen t st' Hr; simpl in *.
  - injection Hr as <-. exists []. simpl. split; [by rewrite app_nil_r|].
    apply Q_skip. by intros c [].
  - pose proof (Hw y seen t) as Hy.
    destruct (w y (seen, t)) as [[s1 t1]|m [s1 t1]|]; simpl in *; [| |done].
    + destruct (Hy _ eq_refl) as (n1 & Ht1 & Hs1). simpl in Ht1, Hs1. subst t1.
      destruct (IH s1 (t ++ n1) st' Hr) as (n2 & Ht & Hs2).
      exists (n1 ++ n2). split; [by rewrite Ht, app_assoc|].
      by eapply Q_seq.
    + injection Hr as <-. destruct (Hy _ eq_refl) as (n1 & Ht & Hs1).
      exists n1. split; [done|]. by apply Q_seq_panic.
Qed.

Lemma walk_run_ind (fuel : nat) (x : Syntax) (seen : gmap Syntax bool)
    (t : list Event) (st' : State) :
  finalState (walk h logEnter logExit fuel x (seen, t)) = Some st' ->
  exists new, snd st' = t ++ new /\
    Q [x] seen (fst st') new (ending (walk h logEnter logExit fuel x (seen, t))).
Proof.
  revert x seen t st'. induction fuel as [|fuel IH]; intros x seen t st' Hr; [done|].
  destruct x as [|k p].
  { simpl in *. injection Hr as <-. exists []. split; [by rewrite app_nil_r|].
    apply Q_skip. intros c [<-|[]]. by left. }
  rewrite walk_unfold in *. simpl fst in *. simpl snd in *.
  destruct (seenAt seen (Ptr k p)) eqn:Hseen.
  { simpl in *. injection Hr as <-. exists []. split; [by rewrite app_nil_r|].
    apply Q_skip. intros c [<-|[]]. by right. }
  cbv zeta in *.
  destruct (rule h k p) as [cs|m] eqn:Hrule.
  - pose proof (walkEach_run_ind _ IH cs (<[Ptr k p:=true]> seen)
                  (logEnter (Ptr k p) t)) as Hcs.
    destruct (walkEach _ cs _) as [[s1 t1]|m [s1 t1]|]; simpl in *; [| |done].
    + injection Hr as <-. destruct (Hcs _ eq_refl) as (new & Ht1 & Hs1).
      simpl in *. subst t1.
      exists (Enter (Ptr k p) :: new ++ [Exit (Ptr k p)]). split.
      * unfold logExit, logEnter. by rewrite <- !app_assoc.
      * by apply (Q_node k p cs seen s1 new None).
    + injection Hr as <-. destruct (Hcs _ eq_refl) as (new & Ht1 & Hs1).
      simpl in *. subst t1.
      exists (Enter (Ptr k p) :: new ++ []). split.
      * unfold logEnter. by rewrite app_nil_r, <- !app_assoc.
      * by apply (Q_node k p cs seen s1 new (Some m)).
  - simpl in *. injection Hr as <-. exists [Enter (Ptr k p)]. split; [done|].
    by apply Q_node_panic.
Qed.

End RunInduction.

Lemma walk_ordered (h : Heap) (fuel : nat) (x : Syntax) (seen : gmap Syntax bool)
    (t : list Event) (st' : gmap Syntax bool * list Event) :
  finalState (walk h logEnter logExit fuel x (seen, t)) = Some st' ->
  exists new, snd st' = t ++ new /\
    orderedRun h [x] new (ending (walk h logEnter logExit fuel x (seen, t))).
Proof.
  apply (walk_run_ind h (fun roots _ _ new e => orderedRun h roots new e)).
  - intros roots seen0 _. split; [by intros z []|by intros _ z []].
  - intros y l _ _ _ n1 n2 e [E1 X1] [E2 X2]. split.
    + intros z. rewrite entered_app, List.in_app_iff. intros [Hz|Hz].
      * destruct (E1 z Hz) as [[<-|[]]|(u & Hu & Hp)]; [left; by left|].
        right. exists u. split; [done | by apply precedes_app_l].
      * destruct (E2 z Hz) as [Hl|(u & Hu & Hp)]; [left; by right|].
        right. exists u. split; [done | by apply precedes_app_r].
    + intros -> z. rewrite exited_app, List.in_app_iff. intros [Hz|Hz].
      * destruct (X1 eq_refl z Hz) as [[<-|[]]|(u & Hu & Hp)]; [left; by left|].
        right. exists u. split; [done | by apply precedes_app_l].
      * destruct (X2 eq_refl z Hz) as [Hl|(u & Hu & Hp)]; [left; by right|].
        right. exists u. split; [done | by apply precedes_app_r].
  - intros y l _ _ n1 m [E1 X1]. split; [|done].
    intros z Hz. destruct (E1 z Hz) as [[<-|[]]|?]; [left; by left | by right].
  - intros k p _ m _ _. split; [|done]. intros z [<-|[]]. left. by left.
  - intros k p cs _ _ new e _ Hrule [E X].
    assert (Hedge : forall z, In z cs -> edge h (Ptr k p) z).
    { intros z Hz. unfold edge. simpl. by rewrite Hrule. }
    split.
    + intros z. simpl. rewrite entered_app, List.in_app_iff.
      assert (Hnone : entered match e with Some _ => [] | None => [Exit (Ptr k p)] end = [])
        by (by destruct e).
      rewrite Hnone, app_nil_r. intros [<-|[Hz|[]]]; [left; by left|].
      right. destruct (E z Hz) as [Hcs|(u & Hu & Hp)].
      * exists (Ptr k p). split; [by apply Hedge | by apply precedes_head].
      * exists u. split; [done|]. by apply (precedes_app_r u z _ [Ptr k p]).
    + intros ->. simpl. rewrite exited_app. simpl.
      intros z. rewrite List.in_app_iff. intros [Hz|[<-|[]]]; [|left; by left].
      right. destruct (X eq_refl z Hz) as [Hcs|(u & Hu & Hp)].
      * exists (Ptr k p). split; [by apply Hedge | by apply precedes_last].
      * exists u. split; [done | by apply precedes_app_l].
Qed.

(** [Preorder] calls [f] on a node, unless it is the root, after it has
    called [f] on a node that has it among the fields [walk] descends
    into; this holds of the calls made before a panic too. *)
Theorem Preorder_parent_first (h : Heap) (fuel : nat) (root : Syntax)
    (calls : list Syntax) (z : Syntax) :
  finalState (Preorder h fuel root record []) = Some calls -> In z calls ->
  z = root \/ exists y, edge h y z /\ precedes y z calls.
Proof.
  rewrite Preorder_calls. unfold Walk. intros Hr Hz.
  pose proof (walk_ordered h fuel root seen0 []) as Hw.
  destruct (walk h logEnter logExit fuel root (seen0, [])) as [[s1 t1]|m [s1 t1]|];
    simpl in *; [| |done]; injection Hr as <-;
    destruct (Hw _ eq_refl) as (new & Ht & [E _]); simpl in Ht; subst t1;
    rewrite callAll_record in Hz; simpl in Hz;
    (destruct (E z Hz) as [[<-|[]]|Hy]; [by left|]);
    right; by rewrite callAll_record.
Qed.

Lemma Preorder_parent_first_witness :
  Ptr KSymbolLiteral (Some 2%positive) = Ptr KExpr (Some 1%positive) \/
  exists y, edge cycleHeap y (Ptr KSymbolLiteral (Some 2%positive)) /\
    precedes y (Ptr KSymbolLiteral (Some 2%positive))
      [Ptr KExpr (Some 1%positive); Ptr KExpr (Some 2%positive);
       Ptr KSymbolLiteral (Some 2%positive)].
Proof.
  apply (Preorder_parent_first cycleHeap 7 (Ptr KExpr (Some 1%positive))).
  - vm_compute. reflexivity.
  - simpl. auto.
Defined.

(** When [Postorder] returns, it has called [f] on every node other than
    the root before it called [f] on a node that has it among the fields
    [walk] descends into. *)
Theorem Postorder_children_first (h : Heap) (fuel : nat) (root : Syntax)
    (calls : list Syntax) (z : Syntax) :
  Postorder h fuel root record [] = Done calls -> In z calls ->
  z = root \/ exists y, edge h y z /\ precedes z y calls.
Proof.
  rewrite Postorder_calls. unfold Walk. intros Hr Hz.
  pose proof (walk_ordered h fuel root seen0 []) as Hw.
  destruct (walk h logEnter logExit fuel root (seen0, [])) as [[s1 t1]|m [s1 t1]|];
    simpl in *; [|done|done]. injection Hr as <-.
  destruct (Hw _ eq_refl) as (new & Ht & [_ X]). simpl in Ht. subst t1.
  rewrite callAll_record in *. simpl in *.
  destruct (X eq_refl z Hz) as [[<-|[]]|Hy]; [by left | by right].
Qed.

Lemma Postorder_children_first_witness :
  Ptr KSymbolLiteral (Some 2%positive) = Ptr KExpr (Some 1%positive) \/
  exists y, edge cycleHeap y (Ptr KSymbolLiteral (Some 2%positive)) /\
    precedes (Ptr KSymbolLiteral (Some 2%positive)) y
      [Ptr KSymbolLiteral (Some 2%positive); Ptr KExpr (Some 2%positive);
       Ptr KExpr (Some 1%positive)].
Proof.
  apply (Postorder_children_first cycleHeap 7 (Ptr KExpr (Some 1%positive))).
  - vm_compute. reflexivity.
  - simpl. auto.
Defined.

(** ** The codec: what encoding does to the node, and when decoding returns *)

Section CodecMore.

Variables SyntaxInfo AssignOp Type_ Expr : Type.
Variable marshalSyntaxInfo : SyntaxInfo -> ast.error + list (string * ast.json).
Variable marshalAssignOp : AssignOp -> ast.error + ast.json.
Variable marshalType : option Type_ -> ast.error + ast.json.
Variable marshalExpr : option Expr -> ast.error + ast.json.

Let Node : Type := ast.CastExpr SyntaxInfo AssignOp Type_ Expr.
Let UnmarshalJSON := ast.UnmarshalJSON SyntaxInfo AssignOp Type_ Expr.
Let MarshalJSON :=
  ast.MarshalJSON SyntaxInfo AssignOp Type_ Expr
    marshalSyntaxInfo marshalAssignOp marshalType marshalExpr.

(** Encoding writes into the node. Whatever [Kind] held, after
    [MarshalJSON] it holds the discriminant of the cast node, also when
    [json.Marshal] returns an error; the other fields are untouched;
    encoding the node again returns the same result and changes nothing
    more; and the bytes, when there are any, are an object whose [kind]
    is that discriminant. *)
Theorem MarshalJSON_writes_discriminant (x : Node) :
  exists (y : Node) (r : ast.error + ast.Data),
    MarshalJSON (Some x) = Ok (y, r) /\
    ast.Kind _ _ _ _ y = "CastExpr"%string /\
    ast.Info _ _ _ _ y = ast.Info _ _ _ _ x /\
    ast.Id _ _ _ _ y = ast.Id _ _ _ _ x /\
    ast.Op _ _ _ _ y = ast.Op _ _ _ _ x /\
    ast.Type' _ _ _ _ y = ast.Type' _ _ _ _ x /\
    ast.Expr' _ _ _ _ y = ast.Expr' _ _ _ _ x /\
    MarshalJSON (Some y) = Ok (y, r) /\
    (forall data, r = inr data ->
       exists fields, data = Some (ast.JObject fields) /\
                      In ("kind"%string, ast.JString "CastExpr") fields).
Proof.
  eexists. eexists. split; [reflexivity|].
  repeat (split; [reflexivity|]).
  intros data Hr. unfold ast.json_Marshal in Hr. simpl in Hr.
  destruct (marshalSyntaxInfo _) as [e|info]; [discriminate Hr|].
  destruct (marshalAssignOp _) as [e|op]; [discriminate Hr|].
  destruct (marshalType _) as [e|ty]; [discriminate Hr|].
  destruct (marshalExpr _) as [e|ex]; [discriminate Hr|].
  injection Hr as <-. eexists. split; [reflexivity|].
  apply List.in_app_iff. right. simpl. auto.
Qed.

(** When decoding returns. [UnmarshalJSON], called through a pointer
    that may be nil, returns in two cases only: the bytes are not a JSON
    text for the scanner of [encoding/json], and the syntax error of the
    library is returned; or the bytes are a JSON text and the receiver is
    nil, and the library's [InvalidUnmarshalError] is returned. On a
    non-nil receiver and a JSON text it calls itself without end. It
    never returns success and it never panics. *)
Theorem UnmarshalJSON_returns_only_errors (fuel : nat) (data : ast.Data)
    (x : option Node) :
  ast.UnmarshalJSON_ptr _ _ _ _ (S fuel) data x =
    match data, x with
    | None, _ => Done (Some ast.SyntaxError)
    | Some _, None => Done (Some ast.InvalidUnmarshalError)
    | Some _, Some _ => OutOfFuel
    end /\
  ast.UnmarshalJSON_ptr _ _ _ _ fuel data x <> Done None /\
  (forall m e, ast.UnmarshalJSON_ptr _ _ _ _ fuel data x <> Panicked m e) /\
  (forall c, ast.UnmarshalJSON_ptr _ _ _ _ fuel data (Some c) = UnmarshalJSON fuel data c).
Proof.
  assert (H : forall n, ast.UnmarshalJSON_ptr _ _ _ _ (S n) data x =
    match data, x with
    | None, _ => Done (Some ast.SyntaxError)
    | Some _, None => Done (Some ast.InvalidUnmarshalError)
    | Some _, Some _ => OutOfFuel
    end).
  { intros n. destruct data as [v|], x as [c|]; simpl; try reflexivity.
    apply UnmarshalJSON_json_overflows. }
  split; [apply H|]. split; [|split].
  - destruct fuel as [|n]; [discriminate|]. rewrite H.
    destruct data, x; discriminate.
  - intros m e. destruct fuel as [|n]; [discriminate|]. rewrite H.
    destruct data, x; discriminate.
  - intros c. destruct fuel as [|n]; reflexivity.
Qed.

End CodecMore.
